(** * typed-state-machine: the [StateMachine] class of
    [src/typed-state-machine.ts], embedded and verified.

    The class keeps four private fields ([_currentState], [_configuration],
    [_listeners], [_scopeStack]) and calls back into user code at five
    places: the configuration callbacks of the constructor, the rule
    registered for a (state, event) pair, the [onExit] and [onEnter]
    callbacks, and the listeners.  The embedding keeps the methods as
    functions in a small monad over the fields; a user callback is a
    program over the public interface of the machine, so that a callback
    can dispatch, subscribe and unsubscribe while the machine is running
    it, as it can in the source. *)

From Stdlib Require Import String List Arith Lia.
From stdpp Require Import base option list gmap strings.

Set Warnings "-register-all".
Declare Scope machine_scope.
Local Open Scope string_scope.
Local Open Scope list_scope.

(** ** Values *)

(** [type BaseStateOrEvent = { type: string }]: states and events are
    opaque values with a discriminant. *)
Class BaseStateOrEvent (T : Type) := type : T -> string.

(** What a callback can throw, or what the runtime throws for it. *)
Inductive Exn : Type :=
| Error (message : string)
| TypeError (message : string)
| ReferenceError (message : string).

(** Listeners are function objects; the [Set] that holds them compares
    them by identity.  A listener is therefore a reference, and the
    behaviour behind a reference is given separately ([listener_fn] below). *)
Abbreviation Listener := nat (only parsing).

Section Machine.

Context {State Event : Type}.
Context `{!BaseStateOrEvent State} `{!BaseStateOrEvent Event}.

(** ** User callbacks

    A callback body, as far as the machine can tell: it returns, throws,
    reads [fsm.state], or calls [fsm.transition], [fsm.subscribe] or an
    unsubscribe function it got from [fsm.subscribe(l)], and goes on.
    These are the callbacks that use the machine through its public
    interface and let its exceptions pass; a callback that catches what
    the machine throws at it, or that calls a configuration entry point it
    has kept from the constructor, is not among them. *)
Inductive Prog (R : Type) : Type :=
| Return (r : R)
| Throw (e : Exn)
| ReadState (k : option State -> Prog R)
| CallTransition (event : Event) (k : Prog R)
| CallSubscribe (l : Listener) (k : Prog R)
| CallUnsubscribe (l : Listener) (k : Prog R).

#[global] Arguments Return {R} r.
#[global] Arguments Throw {R} e.
#[global] Arguments ReadState {R} k.
#[global] Arguments CallTransition {R} event k.
#[global] Arguments CallSubscribe {R} l k.
#[global] Arguments CallUnsubscribe {R} l k.

(** [type Transition<State> = { state: State | null; sideEffect: (() => void) | null }] *)
Abbreviation SideEffect := (Prog unit).

Record Transition : Type := {
  state : option State;
  sideEffect : option SideEffect;
}.

(** The two constructors handed to a rule (source l.178-185);
    an omitted side effect becomes [null]. *)
Definition transitionTo (s : State) (se : option SideEffect) : Transition :=
  {| state := Some s; sideEffect := se |}.

Definition dontTransition (se : option SideEffect) : Transition :=
  {| state := None; sideEffect := se |}.

Abbreviation OnEnterOrExitConfiguration := (State -> Prog unit).
Abbreviation OnEventConfiguration := (State -> Event -> Prog Transition).

(** [type StateConfiguration = { onEnter?; onExit?; on: Record<string, ...> }].
    [on] holds what [on(type, ...)] has assigned to the object [{}] of
    source l.121: its own properties and, under ["__proto__"], its
    prototype if one was assigned.  What a read finds beyond the own
    properties is [Object.prototype] (see [inherited] below). *)
Record StateConfiguration : Type := {
  onEnter : option OnEnterOrExitConfiguration;
  onExit : option OnEnterOrExitConfiguration;
  on : gmap string OnEventConfiguration;
}.

(** ** The listener set

    [new Set<Listener>()], as ECMA-262 specifies it: the data of a set is
    a list of entries; [add] appends a value that is not yet there;
    [delete] replaces the entry by an empty one without moving the others;
    an iterator walks the list by index, skips the empty entries, and
    looks at the length again after every step. *)
Abbreviation SetData := (list (option Listener)).

Definition set_has (l : Listener) (d : SetData) : bool :=
  bool_decide (Some l ∈ d).

Definition set_add (l : Listener) (d : SetData) : SetData :=
  if set_has l d then d else d ++ [Some l].

Definition set_delete (l : Listener) (d : SetData) : SetData :=
  (fun e => if decide (e = Some l) then None else e) <$> d.

(** The members, in iteration order. *)
Definition members (d : SetData) : list Listener := omap id d.

(** ** The object *)

Record StateMachine : Type := {
  _currentState : option State;          (* undefined until initialState runs *)
  _configuration : gmap string StateConfiguration;
  _listeners : SetData;
  _scopeStack : list string;
}.

Definition set_currentState (s : State) (this : StateMachine) : StateMachine :=
  {| _currentState := Some s; _configuration := _configuration this;
     _listeners := _listeners this; _scopeStack := _scopeStack this |}.

(** [this._currentState = undefined] *)
Definition clear_currentState (this : StateMachine) : StateMachine :=
  {| _currentState := None; _configuration := _configuration this;
     _listeners := _listeners this; _scopeStack := _scopeStack this |}.

Definition set_configuration (c : gmap string StateConfiguration)
    (this : StateMachine) : StateMachine :=
  {| _currentState := _currentState this; _configuration := c;
     _listeners := _listeners this; _scopeStack := _scopeStack this |}.

Definition set_listeners (d : SetData) (this : StateMachine) : StateMachine :=
  {| _currentState := _currentState this; _configuration := _configuration this;
     _listeners := d; _scopeStack := _scopeStack this |}.

Definition set_scopeStack (k : list string) (this : StateMachine) : StateMachine :=
  {| _currentState := _currentState this; _configuration := _configuration this;
     _listeners := _listeners this; _scopeStack := k |}.

(** ** What a run shows

    Every call the machine makes into user code is recorded with its
    arguments, with the value [fsm.state] had when the call was made, and
    with the calls the machine made while that callback was running
    (because the callback called back into the machine).  [onExit] and
    [onEnter] calls also carry the discriminant their callback was
    registered for.  A scheduled side effect is recorded when it is handed
    to [setTimeout]. *)
Inductive Call : Type :=
| OnEventCall (s : State) (event : Event)
| OnExitCall (registeredFor : string) (s : State)
| OnEnterCall (registeredFor : string) (s : State)
| ListenerCall (l : Listener) (previous : option State) (current : State)
    (event : option Event).

Inductive Obs : Type :=
| Invoked (c : Call) (seen : option State) (nested : list Obs)
| SetTimeout (se : SideEffect).

(** How a run ends.  [OutOfFuel]: the bound on nesting and on the length
    of a round is used up.  [Unmodelled]: the run has come to a point
    where what the source does is not told by what the model holds (it
    passes [undefined] where the model has a state, or it reads a table
    through a prototype that the configuration has replaced); the model
    says nothing about the rest of it. *)
Inductive Completion (R : Type) : Type :=
| Normal (r : R)
| Throws (e : Exn)
| OutOfFuel
| Unmodelled.

#[global] Arguments Normal {R} r.
#[global] Arguments Throws {R} e.
#[global] Arguments OutOfFuel {R}.
#[global] Arguments Unmodelled {R}.

Record Outcome (Σ R : Type) : Type := Out {
  after : Σ;
  observed : list Obs;
  completion : Completion R;
}.

#[global] Arguments Out {Σ R} after observed completion.
#[global] Arguments after {Σ R} o.
#[global] Arguments observed {Σ R} o.
#[global] Arguments completion {Σ R} o.

(** State, observations and exceptions: a method is a function from the
    object to an outcome. *)
Definition M (Σ R : Type) : Type := Σ -> Outcome Σ R.

Definition ret {Σ R} (r : R) : M Σ R := fun this => Out this [] (Normal r).

Definition throw {Σ R} (e : Exn) : M Σ R := fun this => Out this [] (Throws e).

Definition out_of_fuel {Σ R} : M Σ R := fun this => Out this [] OutOfFuel.

Definition unmodelled {Σ R} : M Σ R := fun this => Out this [] Unmodelled.

Definition bind {Σ A B} (x : M Σ A) (f : A -> M Σ B) : M Σ B := fun this =>
  let o := x this in
  match completion o with
  | Normal a =>
      let o' := f a (after o) in
      Out (after o') (observed o ++ observed o') (completion o')
  | Throws e => Out (after o) (observed o) (Throws e)
  | OutOfFuel => Out (after o) (observed o) OutOfFuel
  | Unmodelled => Out (after o) (observed o) Unmodelled
  end.

Definition gets {Σ A} (f : Σ -> A) : M Σ A := fun this => Out this [] (Normal (f this)).

Definition modify {Σ} (f : Σ -> Σ) : M Σ unit := fun this => Out (f this) [] (Normal tt).

Definition emit {Σ} (o : Obs) : M Σ unit := fun this => Out this [o] (Normal tt).

Notation "x <- m ;; k" := (bind m (fun x => k))
  (at level 100, m at next level, k at level 200, right associativity)
  : machine_scope.
Notation "m ;; k" := (bind m (fun _ => k))
  (at level 100, k at level 200, right associativity) : machine_scope.
Local Open Scope machine_scope.

(** Reading [this._currentState] where a [State] is passed on (source
    l.188 and l.209).  The field is [undefined] until [initialState]
    runs, and again after a dispatch that went through [toString]
    ([apply_inherited]); the source then passes [undefined] on, a value
    the callbacks of the model have no name for. *)
Definition read_currentState : M StateMachine State := fun this =>
  match _currentState this with
  | Some s => ret s this
  | None => unmodelled this
  end.

(** [this._currentState.type] (source l.163): the state whose discriminant
    is looked up; reading [type] off [undefined] throws. *)
Definition read_state_for_lookup : M StateMachine State := fun this =>
  match _currentState this with
  | Some s => ret s this
  | None => throw (TypeError "Cannot read properties of undefined (reading 'type')") this
  end.

(** ** Running a callback *)

Variable listener_fn :
  Listener -> option State -> State -> option Event -> Prog unit.

(** The public interface as a callback sees it. *)
Record Api : Type := {
  api_state : M StateMachine (option State);
  api_transition : Event -> M StateMachine unit;
  api_subscribe : Listener -> M StateMachine unit;
  api_unsubscribe : Listener -> M StateMachine unit;
}.

Fixpoint run_prog (api : Api) {R} (p : Prog R) : M StateMachine R :=
  match p with
  | Return r => ret r
  | Throw e => throw e
  | ReadState k => s <- api_state api;; run_prog api (k s)
  | CallTransition event k => api_transition api event;; run_prog api k
  | CallSubscribe l k => api_subscribe api l;; run_prog api k
  | CallUnsubscribe l k => api_unsubscribe api l;; run_prog api k
  end.

(** The machine calls [body]: the call is recorded with what the callback
    sees on entry, and what happens inside goes under it. *)
Definition invoke (api : Api) {R} (c : Call) (body : Prog R) : M StateMachine R :=
  fun this =>
    let o := run_prog api body this in
    Out (after o) [Invoked c (_currentState this) (observed o)] (completion o).

(** [callback?.({ state })] *)
Definition invoke_opt (api : Api) (c : Call)
    (callback : option OnEnterOrExitConfiguration) (s : State)
    : M StateMachine unit :=
  match callback with
  | Some f => invoke api c (f s)
  | None => ret tt
  end.

(** ** [subscribe] (source l.207-213) and the function it returns *)

Definition unsubscribe (listener : Listener) : M StateMachine unit :=
  modify (fun this => set_listeners (set_delete listener (_listeners this)) this).

Definition subscribe_with (api : Api) (listener : Listener)
    : M StateMachine (M StateMachine unit) :=
  modify (fun this => set_listeners (set_add listener (_listeners this)) this);;
  current <- read_currentState;;
  invoke api (ListenerCall listener None current None)
       (listener_fn listener None current None);;
  ret (unsubscribe listener).

(** ** [transition] (source l.162-205) *)

(** [for (const listener of this._listeners) listener(previous, current, event)]:
    the iterator of the live set, position [index].  The set can grow
    while it is walked, so the walk is bounded by [fuel]. *)
Fixpoint notify (api : Api) (fuel index : nat)
    (previous : option State) (current : State) (event : option Event)
    : M StateMachine unit :=
  fun this =>
    match _listeners this !! index with
    | None => ret tt this
    | Some entry =>
        match fuel with
        | 0 => out_of_fuel this
        | S fuel' =>
            match entry with
            | None => notify api fuel' (S index) previous current event this
            | Some listener =>
                (invoke api (ListenerCall listener previous current event)
                      (listener_fn listener previous current event);;
                 notify api fuel' (S index) previous current event) this
            end
        end
    end.

(** Source l.175-204: the rule has been found. *)
Definition apply_rule (api : Api) (fuel : nat)
    (stateDefinition : StateConfiguration) (onEvent : OnEventConfiguration)
    (current : State) (event : Event) : M StateMachine unit :=
  tr <- invoke api (OnEventCall current event) (onEvent current event);;
  previousState <- read_currentState;;
  match state tr with
  | Some next =>
      invoke_opt api (OnExitCall (type current) previousState)
        (onExit stateDefinition) previousState;;
      modify (set_currentState next);;
      configuration' <- gets _configuration;;
      invoke_opt api (OnEnterCall (type next) next)
        (configuration' !! type next ≫= onEnter) next
  | None => ret tt
  end;;
  notify api fuel 0 (Some previousState)
    (default previousState (state tr)) (Some event);;
  match sideEffect tr with
  | Some se => emit (SetTimeout se)
  | None => ret tt
  end.

(** ** Plain objects read as tables

    [_configuration] and every [on] are plain objects (source l.93 and
    l.121), and the lookups of [transition] are [object[key]]: a key that
    is not an own property of the object is found in [Object.prototype]
    if it names one of its members.  The members are those of ECMA-262
    (Annex B included); the program is taken not to add to them. *)
Definition Object_prototype : list string :=
  ["constructor"; "hasOwnProperty"; "isPrototypeOf"; "propertyIsEnumerable";
   "toLocaleString"; "toString"; "valueOf"; "__proto__";
   "__defineGetter__"; "__defineSetter__"; "__lookupGetter__"; "__lookupSetter__"].

Definition inherited (key : string) : Prop := key ∈ Object_prototype.

#[global] Instance inherited_dec key : Decision (inherited key).
Proof. unfold inherited. apply _. Defined.

(** Source l.175-204 when [stateDefinition.on[event.type]] is no rule of
    the configuration but a member of [Object.prototype]: the member is
    called in the place of a rule, with the one argument
    [{ state, event, transitionTo, dontTransition }] and no receiver.
    - [constructor] is [Object], which gives its argument back: the
      "transition" read off it has the current state as [state] and no
      [sideEffect], and the machine exits and enters the state it is in;
    - [toString] gives a string: [state] is [undefined], which is not
      [null], so that [onExit] runs, [_currentState] is set to
      [undefined], and the read of [state.type] throws;
    - [__proto__] is [Object.prototype] itself, not a function;
    - every other member throws for want of a receiver.
    The text of a [TypeError] is the engine's. *)
Definition apply_inherited (api : Api) (fuel : nat)
    (stateDefinition : StateConfiguration) (current : State) (event : Event)
    : M StateMachine unit :=
  if decide (type event = "constructor") then
    previousState <- read_currentState;;
    invoke_opt api (OnExitCall (type current) previousState)
      (onExit stateDefinition) previousState;;
    modify (set_currentState current);;
    configuration' <- gets _configuration;;
    invoke_opt api (OnEnterCall (type current) current)
      (configuration' !! type current ≫= onEnter) current;;
    notify api fuel 0 (Some previousState) current (Some event)
  else if decide (type event = "toString") then
    previousState <- read_currentState;;
    invoke_opt api (OnExitCall (type current) previousState)
      (onExit stateDefinition) previousState;;
    modify clear_currentState;;
    throw (TypeError "Cannot read properties of undefined (reading 'type')")
  else if decide (type event = "__proto__") then
    throw (TypeError "onEvent is not a function")
  else
    throw (TypeError "Cannot convert undefined or null to object").

(** Source l.163-173: the two lookups, each with its early return.  A
    discriminant of the current state that names a member of
    [Object.prototype] and has no entry of its own finds that member, an
    object without [on]: the second lookup throws.  A lookup that finds
    no entry in a table whose prototype was replaced goes through that
    prototype, a callback or an object of the configuration: there the
    model stops. *)
Definition transition_with (api : Api) (fuel : nat) (event : Event)
    : M StateMachine unit :=
  current <- read_state_for_lookup;;
  configuration <- gets _configuration;;
  match configuration !! type current with
  | None =>
      if decide (is_Some (configuration !! "__proto__")) then unmodelled
      else if decide (inherited (type current))
      then throw (TypeError (String.append "Cannot read properties of undefined (reading '"
                               (String.append (type event) "')")))
      else ret tt
  | Some stateDefinition =>
      match on stateDefinition !! type event with
      | None =>
          if decide (is_Some (on stateDefinition !! "__proto__")) then unmodelled
          else if decide (inherited (type event))
          then apply_inherited api fuel stateDefinition current event
          else ret tt
      | Some onEvent => apply_rule api fuel stateDefinition onEvent current event
      end
  end.

(** ** Tying the knot

    A callback that calls back into the machine runs the methods again,
    one level deeper; [fuel] bounds the depth (and the length of a
    notification round). *)
Fixpoint api_at (fuel : nat) : Api :=
  match fuel with
  | 0 =>
      {| api_state := gets _currentState;
         api_transition := fun _ => out_of_fuel;
         api_subscribe := fun _ => out_of_fuel;
         api_unsubscribe := unsubscribe |}
  | S fuel' =>
      {| api_state := gets _currentState;
         api_transition := transition_with (api_at fuel') fuel';
         api_subscribe := fun l => (subscribe_with (api_at fuel') l;; ret tt);
         api_unsubscribe := unsubscribe |}
  end.

Definition transition (fuel : nat) (event : Event) : M StateMachine unit :=
  transition_with (api_at fuel) fuel event.

Definition subscribe (fuel : nat) (listener : Listener)
    : M StateMachine (M StateMachine unit) :=
  subscribe_with (api_at fuel) listener.

(** Running a callback body with [fuel] levels of re-entrancy left. *)
Definition call (fuel : nat) {R} (body : Prog R) : M StateMachine R :=
  run_prog (api_at fuel) body.

(** ** The constructor (source l.97-160) and its entry points

    The configuration callback receives [initialState] and [state]; the
    callback given to [state] receives [onEnter], [onExit] and [on], three
    closures over the local [stateConfiguration] of that call of [state].
    A state-level entry point therefore works on that local object and on
    [this]. *)
Definition StateScope (R : Type) : Type := M (StateConfiguration * StateMachine) R.

(** Code of the enclosing scope, run inside a state callback. *)
Definition outer {R} (x : M StateMachine R) : StateScope R := fun scope =>
  let o := x (snd scope) in
  Out (fst scope, after o) (observed o) (completion o).

Definition _checkConfigScope : M StateMachine unit := fun this =>
  if decide (head (_scopeStack this) = Some "config") then ret tt this
  else throw (Error "Call to `initialState` is allowed only from within the config callback, but not inside a state callback") this.

Definition _checkStateScope (name : string) : M StateMachine unit := fun this =>
  if decide (head (_scopeStack this) = Some "state") then ret tt this
  else throw (Error (String.append "Call to `"
                (String.append name "` is allowed only from within a state callback"))) this.

Definition unshift (tag : string) (this : StateMachine) : StateMachine :=
  set_scopeStack (tag :: _scopeStack this) this.

Definition shift (this : StateMachine) : StateMachine :=
  set_scopeStack (tail (_scopeStack this)) this.

Definition onEnter_entry (onEnterCallback : OnEnterOrExitConfiguration)
    : StateScope unit :=
  outer (_checkStateScope "onEnter");;
  modify (fun scope =>
    ({| onEnter := Some onEnterCallback; onExit := onExit (fst scope);
        on := on (fst scope) |}, snd scope)).

Definition onExit_entry (onExitCallback : OnEnterOrExitConfiguration)
    : StateScope unit :=
  outer (_checkStateScope "onExit");;
  modify (fun scope =>
    ({| onEnter := onEnter (fst scope); onExit := Some onExitCallback;
        on := on (fst scope) |}, snd scope)).

(** [stateConfiguration.on[type] = onEventCallback] (source l.138).  An
    assignment to the key ["__proto__"] of a plain object creates no
    property: it makes the value the prototype of the object, and a read
    of that key gives it back.  The table holds it under that key. *)
Definition on_entry (ty : string) (onEventCallback : OnEventConfiguration)
    : StateScope unit :=
  outer (_checkStateScope "on");;
  modify (fun scope =>
    ({| onEnter := onEnter (fst scope); onExit := onExit (fst scope);
        on := <[ty := onEventCallback]> (on (fst scope)) |}, snd scope)).

Definition StateDefinitionCallback : Type :=
  (OnEnterOrExitConfiguration -> StateScope unit) ->
  (OnEnterOrExitConfiguration -> StateScope unit) ->
  (string -> OnEventConfiguration -> StateScope unit) ->
  StateScope unit.

(** Runs the body of a state callback on a local [stateConfiguration] and
    gives the object back. *)
Definition with_local (stateConfiguration : StateConfiguration)
    (body : StateScope unit) : M StateMachine StateConfiguration := fun this =>
  let o := body (stateConfiguration, this) in
  Out (snd (after o)) (observed o)
    match completion o with
    | Normal _ => Normal (fst (after o))
    | Throws e => Throws e
    | OutOfFuel => OutOfFuel
    | Unmodelled => Unmodelled
    end.

Definition initialState_entry (s : State) : M StateMachine unit :=
  _checkConfigScope;;
  modify (set_currentState s).

Definition state_entry (ty : string)
    (stateDefinitionCallback : StateDefinitionCallback) : M StateMachine unit :=
  _checkConfigScope;;
  modify (unshift "state");;
  stateConfiguration <-
    with_local {| onEnter := None; onExit := None; on := ∅ |}
      (stateDefinitionCallback onEnter_entry onExit_entry on_entry);;
  modify shift;;
  (* [this._configuration[state] = stateConfiguration] (source l.144); for
     the key ["__proto__"] see [on_entry] *)
  modify (fun this =>
    set_configuration (<[ty := stateConfiguration]> (_configuration this)) this).

Definition ConfigCallback : Type :=
  (State -> M StateMachine unit) ->
  (string -> StateDefinitionCallback -> M StateMachine unit) ->
  M StateMachine unit.

(** While the constructor runs, no reference to the object exists outside
    it: a callback that reaches for the machine, be it to read
    [fsm.state], fails on the unbound name. *)
Definition api_unbound : Api :=
  let unbound {R} : M StateMachine R :=
    throw (ReferenceError "Cannot access the machine before initialization") in
  {| api_state := unbound;
     api_transition := fun _ => unbound;
     api_subscribe := fun _ => unbound;
     api_unsubscribe := fun _ => unbound |}.

(** The field initialisers (source l.92-95). *)
Definition fresh : StateMachine :=
  {| _currentState := None; _configuration := ∅; _listeners := [];
     _scopeStack := [] |}.

(** [configCallback] is [None] when the argument is not a function. *)
Definition constructor (configCallback : option ConfigCallback)
    : M StateMachine unit :=
  match configCallback with
  | None =>
      throw (Error "The StateMachine constructor expects a callback as the first argument")
  | Some callback =>
      modify (unshift "config");;
      callback initialState_entry state_entry;;
      modify shift;;
      assigned <- gets _currentState;;
      match assigned with
      | None => throw (Error "No initial state provided")
      | Some current =>
          configuration <- gets _configuration;;
          (* [Object.keys(this._configuration).length === 0]; an entry
             under ["__proto__"] is no key of the object, and the
             statements about written-down configurations leave that key
             out ([plain]) *)
          if decide (size configuration = 0)
          then throw (Error "No state definition was provided")
          else invoke_opt api_unbound (OnEnterCall (type current) current)
                 (configuration !! type current ≫= onEnter) current
      end
  end.

Definition new_StateMachine (configCallback : option ConfigCallback)
    : Outcome StateMachine unit :=
  constructor configCallback fresh.

(** ** Vocabulary of the statements *)


(** The two lookups find nothing at all: under the discriminant of the
    state neither an entry of the table nor a member of
    [Object.prototype], or an entry in which the discriminant of the event
    names neither a rule nor such a member (the table read being one
    whose prototype was not replaced). *)
Definition finds_nothing (this : StateMachine) (current : State) (event : Event)
    : Prop :=
  match _configuration this !! type current with
  | None =>
      _configuration this !! "__proto__" = None /\ ~ inherited (type current)
  | Some stateDefinition =>
      on stateDefinition !! type event = None /\
      on stateDefinition !! "__proto__" = None /\
      ~ inherited (type event)
  end.

(** A body that never calls back into the machine. *)
Fixpoint quiet {R} (p : Prog R) : Prop :=
  match p with
  | Return _ | Throw _ => True
  | ReadState k => forall s, quiet (k s)
  | _ => False
  end.

(** A body that returns normally and leaves the listener set as it found
    it, whatever state the machine is in when it is called. *)
Definition calm (fuel : nat) {R} (p : Prog R) : Prop :=
  forall this, exists this' nested r,
    call fuel p this = Out this' nested (Normal r) /\
    _listeners this' = _listeners this.



(** The invariant of a [Set]: no value is held twice. *)
Definition set_wf (d : SetData) : Prop := NoDup (members d).

(** The listeners a run called itself, in order (calls made by nested
    dispatches are under the callback that made them, not here). *)
Definition listener_of (o : Obs) : option Listener :=
  match o with
  | Invoked (ListenerCall l _ _ _) _ _ => Some l
  | _ => None
  end.

Definition notified_listeners (t : list Obs) : list Listener := omap listener_of t.


Definition notification_of (previous : option State) (current : State)
    (event : option Event) (o : Obs) : Prop :=
  match o with
  | Invoked (ListenerCall _ p c e) _ _ => p = previous /\ c = current /\ e = event
  | _ => False
  end.

(** The record of an optional callback: one call if it is registered. *)
Definition called_if {A} (registered : option A) (c : Call)
    (seen : option State) (nested : list Obs) : list Obs :=
  match registered with
  | Some _ => [Invoked c seen nested]
  | None => []
  end.

(** Running an optional callback body. *)
Definition call_opt (fuel : nat) (callback : option OnEnterOrExitConfiguration)
    (s : State) : M StateMachine unit :=
  match callback with
  | Some f => call fuel (f s)
  | None => ret tt
  end.



Definition scheduled (se : option SideEffect) : list Obs :=
  match se with
  | Some f => [SetTimeout f]
  | None => []
  end.

(** Putting what was observed before in front of an outcome. *)
Definition after_observing {Σ R} (t : list Obs) (o : Outcome Σ R) : Outcome Σ R :=
  Out (after o) (t ++ observed o) (completion o).

(** What no callback can change: the rule table is written by the
    constructor only, and the current state, once assigned, is still
    assigned when a run returns (a run that loses it, [apply_inherited],
    throws). *)
Definition keeps (this this' : StateMachine) : Prop :=
  _configuration this' = _configuration this /\
  (is_Some (_currentState this) -> is_Some (_currentState this')).

Definition keeps_if {A} (this : StateMachine) (o : Outcome StateMachine A) : Prop :=
  _configuration (after o) = _configuration this /\
  (is_Some (_currentState this) ->
   match completion o with
   | Normal _ => is_Some (_currentState (after o))
   | _ => True
   end).

Definition keeping {A} (x : M StateMachine A) : Prop :=
  forall this, keeps_if this (x this).

Definition api_keeping (api : Api) : Prop :=
  keeping (api_state api) /\
  (forall e, keeping (api_transition api e)) /\
  (forall l, keeping (api_subscribe api l)) /\
  (forall l, keeping (api_unsubscribe api l)).

(** Does an error message name an entry point?  The messages quote the
    name between backquotes. *)
Fixpoint contains (needle hay : string) : bool :=
  String.prefix needle hay ||
  match hay with
  | EmptyString => false
  | String _ rest => contains needle rest
  end.

Definition names (entryPoint message : string) : bool :=
  contains (String.append "`" (String.append entryPoint "`")) message.

Definition config_scope_message : string :=
  "Call to `initialState` is allowed only from within the config callback, but not inside a state callback".

(** ** Configurations written down

    A configuration callback that does nothing but call the entry points
    it is given, each in its scope, one after the other, is determined by
    the list of its calls.  What such a configuration describes is read
    off the list: the last [initialState], for every discriminant the last
    [state] block, and in a block the last callback of each kind and the
    last rule of each event. *)
Inductive StateCall : Type :=
| CallOnEnter (f : OnEnterOrExitConfiguration)
| CallOnExit (f : OnEnterOrExitConfiguration)
| CallOn (ty : string) (rule : OnEventConfiguration).

Inductive ConfigCall : Type :=
| CallInitialState (s : State)
| CallState (ty : string) (body : list StateCall).

Fixpoint state_script_from
    (onEnter onExit : OnEnterOrExitConfiguration -> StateScope unit)
    (on : string -> OnEventConfiguration -> StateScope unit)
    (calls : list StateCall) : StateScope unit :=
  match calls with
  | [] => ret tt
  | c :: rest =>
      match c with
      | CallOnEnter f => onEnter f
      | CallOnExit f => onExit f
      | CallOn ty rule => on ty rule
      end;;
      state_script_from onEnter onExit on rest
  end.

Definition state_script (calls : list StateCall) : StateDefinitionCallback :=
  fun onEnter onExit on => state_script_from onEnter onExit on calls.

Fixpoint config_script_from (initialState : State -> M StateMachine unit)
    (state : string -> StateDefinitionCallback -> M StateMachine unit)
    (calls : list ConfigCall) : M StateMachine unit :=
  match calls with
  | [] => ret tt
  | c :: rest =>
      match c with
      | CallInitialState s => initialState s
      | CallState ty body => state ty (state_script body)
      end;;
      config_script_from initialState state rest
  end.

Definition config_script (calls : list ConfigCall) : ConfigCallback :=
  fun initialState state => config_script_from initialState state calls.

Definition record_call (sc : StateConfiguration) (c : StateCall)
    : StateConfiguration :=
  match c with
  | CallOnEnter f => {| onEnter := Some f; onExit := onExit sc; on := on sc |}
  | CallOnExit f => {| onEnter := onEnter sc; onExit := Some f; on := on sc |}
  | CallOn ty rule =>
      {| onEnter := onEnter sc; onExit := onExit sc; on := <[ty := rule]> (on sc) |}
  end.

Definition definition_after (calls : list StateCall)
    (stateConfiguration : StateConfiguration) : StateConfiguration :=
  fold_left record_call calls stateConfiguration.

Definition described_definition (calls : list StateCall) : StateConfiguration :=
  definition_after calls {| onEnter := None; onExit := None; on := ∅ |}.

Definition record_initial (assigned : option State) (c : ConfigCall)
    : option State :=
  match c with
  | CallInitialState s => Some s
  | CallState _ _ => assigned
  end.

Definition record_state (configuration : gmap string StateConfiguration)
    (c : ConfigCall) : gmap string StateConfiguration :=
  match c with
  | CallInitialState _ => configuration
  | CallState ty body => <[ty := described_definition body]> configuration
  end.

Definition initial_after (calls : list ConfigCall) (assigned : option State)
    : option State :=
  fold_left record_initial calls assigned.

Definition table_after (calls : list ConfigCall)
    (configuration : gmap string StateConfiguration)
    : gmap string StateConfiguration :=
  fold_left record_state calls configuration.

(** The machine a written-down configuration describes. *)
Definition described_machine (calls : list ConfigCall) : StateMachine :=
  {| _currentState := initial_after calls None;
     _configuration := table_after calls ∅;
     _listeners := [];
     _scopeStack := [] |}.

(** Is this the call that sets the rule of [ty]? *)
Definition sets_rule (ty : string) (c : StateCall) : Prop :=
  match c with
  | CallOn ty' _ => ty' = ty
  | _ => False
  end.

Definition defines_state (ty : string) (c : ConfigCall) : Prop :=
  match c with
  | CallState ty' _ => ty' = ty
  | _ => False
  end.

(** A written-down configuration that leaves the prototypes of the tables
    alone: none of its keys is ["__proto__"]. *)
Definition plain_block (body : list StateCall) : Prop :=
  Forall (fun c => ~ sets_rule "__proto__" c) body.

Definition plain (calls : list ConfigCall) : Prop :=
  Forall (fun c =>
            match c with
            | CallInitialState _ => True
            | CallState ty body => ty <> "__proto__" /\ plain_block body
            end) calls.

(** A property of the object that a method keeps once it holds. *)
Definition preserving (Inv : StateMachine -> Prop) {A} (x : M StateMachine A)
    : Prop :=
  forall this, Inv this -> Inv (after (x this)).

Definition api_preserving (Inv : StateMachine -> Prop) (api : Api) : Prop :=
  preserving Inv (api_state api) /\
  (forall e, preserving Inv (api_transition api e)) /\
  (forall l, preserving Inv (api_subscribe api l)) /\
  (forall l, preserving Inv (api_unsubscribe api l)).

(** A call into user code, as opposed to a timer. *)
Definition is_call (o : Obs) : Prop :=
  match o with
  | Invoked _ _ _ => True
  | SetTimeout _ => False
  end.


(** A configuration callback that, after the calls [before], opens a
    [state(ty, ...)] block which, after the calls [pre], makes a call
    [nested] of an entry point of the configuration level, and goes on with
    [rest] and [later]. *)
Definition nesting (before : list ConfigCall) (ty : string)
    (pre : list StateCall) (nested : ConfigCallback)
    (rest : StateDefinitionCallback) (later : ConfigCallback) : ConfigCallback :=
  fun initialState state =>
    config_script_from initialState state before;;
    state ty (fun onEnter onExit on =>
      state_script_from onEnter onExit on pre;;
      outer (nested initialState state);;
      rest onEnter onExit on);;
    later initialState state.

End Machine.

Notation "x <- m ;; k" := (bind m (fun x => k))
  (at level 100, m at next level, k at level 200, right associativity)
  : machine_scope.
Notation "m ;; k" := (bind m (fun _ => k))
  (at level 100, k at level 200, right associativity) : machine_scope.
Local Open Scope machine_scope.

(** ** The turnstile of the README *)

Inductive TurnstileState : Type :=
| locked (credit : nat)
| unlocked
| broken (oldState : TurnstileState).

Inductive TurnstileEvent : Type :=
| insertCoin (value : nat)
| admitPerson
| machineDidFail
| machineRepairDidComplete.

#[global] Instance TurnstileState_type : BaseStateOrEvent TurnstileState :=
  fun s =>
    match s with
    | locked _ => "locked"
    | unlocked => "unlocked"
    | broken _ => "broken"
    end.

#[global] Instance TurnstileEvent_type : BaseStateOrEvent TurnstileEvent :=
  fun e =>
    match e with
    | insertCoin _ => "insertCoin"
    | admitPerson => "admitPerson"
    | machineDidFail => "machineDidFail"
    | machineRepairDidComplete => "machineRepairDidComplete"
    end.

Abbreviation TurnstileProg := (@Prog TurnstileState TurnstileEvent).
Abbreviation Turnstile := (@StateMachine TurnstileState TurnstileEvent).
Abbreviation TurnstileTransition := (@Transition TurnstileState TurnstileEvent).

Definition FARE_PRICE : nat := 50.

(** [console.log(...)]: nothing the machine can see. *)
Definition log : TurnstileProg unit := Return tt.

Definition locked_onEnter : TurnstileState -> TurnstileProg unit := fun _ => log.

Definition locked_insertCoin (s : TurnstileState) (e : TurnstileEvent)
    : TurnstileProg TurnstileTransition :=
  match s, e with
  | locked credit, insertCoin value =>
      let newCredit := credit + value in
      if Nat.leb FARE_PRICE newCredit
      then Return (transitionTo unlocked (Some log))
      else Return (transitionTo (locked newCredit) None)
  | _, _ => Return (dontTransition None)
  end.

Definition locked_admitPerson (s : TurnstileState) (e : TurnstileEvent)
    : TurnstileProg TurnstileTransition :=
  Return (dontTransition (Some log)).

Definition locked_machineDidFail (s : TurnstileState) (e : TurnstileEvent)
    : TurnstileProg TurnstileTransition :=
  Return (transitionTo (broken s) (Some log)).

Definition unlocked_admitPerson (s : TurnstileState) (e : TurnstileEvent)
    : TurnstileProg TurnstileTransition :=
  Return (transitionTo (locked 0) None).

Definition broken_onExit : TurnstileState -> TurnstileProg unit := fun _ => log.

Definition broken_machineRepairDidComplete (s : TurnstileState) (e : TurnstileEvent)
    : TurnstileProg TurnstileTransition :=
  match s with
  | broken oldState => Return (transitionTo oldState None)
  | _ => Return (dontTransition None)
  end.

Definition turnstile_config : @ConfigCallback TurnstileState TurnstileEvent :=
  fun initialState state =>
    initialState (locked 0);;
    state "locked" (fun onEnter onExit on =>
      onEnter locked_onEnter;;
      on "insertCoin" locked_insertCoin;;
      on "admitPerson" locked_admitPerson;;
      on "machineDidFail" locked_machineDidFail);;
    state "unlocked" (fun onEnter onExit on =>
      on "admitPerson" unlocked_admitPerson);;
    state "broken" (fun onEnter onExit on =>
      onExit broken_onExit;;
      on "machineRepairDidComplete" broken_machineRepairDidComplete).

Definition turnstile : Turnstile := after (new_StateMachine (Some turnstile_config)).

(** The table the constructor has built. *)
Definition locked_definition : @StateConfiguration TurnstileState TurnstileEvent :=
  {| onEnter := Some locked_onEnter; onExit := None;
     on := <["machineDidFail" := locked_machineDidFail]>
             (<["admitPerson" := locked_admitPerson]>
                (<["insertCoin" := locked_insertCoin]> ∅)) |}.

Definition unlocked_definition : @StateConfiguration TurnstileState TurnstileEvent :=
  {| onEnter := None; onExit := None;
     on := <["admitPerson" := unlocked_admitPerson]> ∅ |}.

Definition broken_definition : @StateConfiguration TurnstileState TurnstileEvent :=
  {| onEnter := None; onExit := Some broken_onExit;
     on := <["machineRepairDidComplete" := broken_machineRepairDidComplete]> ∅ |}.

Definition turnstile_table
    : gmap string (@StateConfiguration TurnstileState TurnstileEvent) :=
  <["broken" := broken_definition]>
    (<["unlocked" := unlocked_definition]>
       (<["locked" := locked_definition]> ∅)).

(** Listeners for the examples.  Listener 1 unsubscribes listener 2 when
    it hears of a dispatch; listener 3 has the machine repaired as soon as
    it hears of a failure; the others only look. *)
Definition example_listeners (l : Listener) (previous : option TurnstileState)
    (current : TurnstileState) (event : option TurnstileEvent)
    : TurnstileProg unit :=
  match l, event with
  | 1, Some _ => CallUnsubscribe 2 (Return tt)
  | 3, Some machineDidFail => CallTransition machineRepairDidComplete (Return tt)
  | _, _ => Return tt
  end.

(** A machine with listeners [ls], subscribed in that order. *)
Definition with_listeners (ls : list Listener) (this : Turnstile) : Turnstile :=
  set_listeners (Some <$> ls) this.


(** A misuse from the test suite: [state] called inside a state callback. *)
Definition nested_state_config : @ConfigCallback TurnstileState TurnstileEvent :=
  fun initialState state =>
    initialState (locked 0);;
    state "locked" (fun onEnter onExit on =>
      outer (state "locked" (fun onEnter onExit on => ret tt))).





(** A rule that throws. *)
Definition jammed_admitPerson (s : TurnstileState) (e : TurnstileEvent)
    : TurnstileProg TurnstileTransition :=
  Throw (Error "jammed").

Definition jammed_config : @ConfigCallback TurnstileState TurnstileEvent :=
  fun initialState state =>
    initialState unlocked;;
    state "unlocked" (fun onEnter onExit on =>
      onExit (fun _ => log);;
      on "admitPerson" jammed_admitPerson).

Definition jammed : Turnstile := after (new_StateMachine (Some jammed_config)).

Definition jammed_definition : @StateConfiguration TurnstileState TurnstileEvent :=
  {| onEnter := None; onExit := Some (fun _ => log);
     on := <["admitPerson" := jammed_admitPerson]> ∅ |}.


(** A turnstile, written down call by call, that cannot be left once
    unlocked and cannot break down. *)
Definition exit_fails : TurnstileState -> TurnstileProg unit :=
  fun _ => Throw (Error "cannot leave").

Definition enter_fails : TurnstileState -> TurnstileProg unit :=
  fun _ => Throw (Error "cannot enter").

Definition guarded_unlocked : list (@StateCall TurnstileState TurnstileEvent) :=
  [CallOnExit exit_fails; CallOn "admitPerson" unlocked_admitPerson].

Definition guarded_locked : list (@StateCall TurnstileState TurnstileEvent) :=
  [CallOn "machineDidFail" locked_machineDidFail].

Definition guarded_calls : list (@ConfigCall TurnstileState TurnstileEvent) :=
  [CallInitialState unlocked;
   CallState "unlocked" guarded_unlocked;
   CallState "locked" guarded_locked;
   CallState "broken" [CallOnEnter enter_fails]].

Definition guarded : Turnstile := described_machine guarded_calls.

(** The README turnstile, written down call by call. *)
Definition turnstile_calls : list (@ConfigCall TurnstileState TurnstileEvent) :=
  [CallInitialState (locked 0);
   CallState "locked"
     [CallOnEnter locked_onEnter;
      CallOn "insertCoin" locked_insertCoin;
      CallOn "admitPerson" locked_admitPerson;
      CallOn "machineDidFail" locked_machineDidFail];
   CallState "unlocked" [CallOn "admitPerson" unlocked_admitPerson];
   CallState "broken"
     [CallOnExit broken_onExit;
      CallOn "machineRepairDidComplete" broken_machineRepairDidComplete]].

(** A turnstile in a hurry: at a failure, and when a person is to be
    admitted, the rule of [locked] first has the fare paid, by a dispatch
    of its own; then one rule answers and the other throws. *)
Definition hasty_machineDidFail (s : TurnstileState) (e : TurnstileEvent)
    : TurnstileProg TurnstileTransition :=
  CallTransition (insertCoin FARE_PRICE) (Return (transitionTo (broken s) None)).

Definition hasty_admitPerson (s : TurnstileState) (e : TurnstileEvent)
    : TurnstileProg TurnstileTransition :=
  CallTransition (insertCoin FARE_PRICE) (Throw (Error "jammed")).

Definition hasty_onExit : TurnstileState -> TurnstileProg unit := fun _ => log.

Definition hasty_config : @ConfigCallback TurnstileState TurnstileEvent :=
  fun initialState state =>
    initialState (locked 0);;
    state "locked" (fun onEnter onExit on =>
      onExit hasty_onExit;;
      on "insertCoin" locked_insertCoin;;
      on "machineDidFail" hasty_machineDidFail;;
      on "admitPerson" hasty_admitPerson);;
    state "unlocked" (fun onEnter onExit on =>
      onExit hasty_onExit;;
      on "admitPerson" unlocked_admitPerson).

Definition hasty : Turnstile := after (new_StateMachine (Some hasty_config)).

(** Events as [transition] receives them at run time: any object with a
    [type]. *)
Inductive AnyEvent : Type :=
| event_of_type (ty : string).

#[global] Instance AnyEvent_type : BaseStateOrEvent AnyEvent :=
  fun e => match e with event_of_type ty => ty end.

(** A gate with one state definition and one rule, and with a listener. *)
Abbreviation GateProg := (@Prog TurnstileState AnyEvent).

Definition gate_onEnter : TurnstileState -> GateProg unit := fun _ => Return tt.

Definition gate_onExit : TurnstileState -> GateProg unit := fun _ => Return tt.

Definition gate_push (s : TurnstileState) (e : AnyEvent)
    : GateProg (@Transition TurnstileState AnyEvent) :=
  Return (transitionTo unlocked None).

Definition gate_config : @ConfigCallback TurnstileState AnyEvent :=
  fun initialState state =>
    initialState (locked 0);;
    state "locked" (fun onEnter onExit on =>
      onEnter gate_onEnter;;
      onExit gate_onExit;;
      on "push" gate_push).

Definition gate_definition : @StateConfiguration TurnstileState AnyEvent :=
  {| onEnter := Some gate_onEnter; onExit := Some gate_onExit;
     on := <["push" := gate_push]> ∅ |}.

Definition gate_listeners (l : Listener) (previous : option TurnstileState)
    (current : TurnstileState) (event : option AnyEvent) : GateProg unit :=
  Return tt.

Definition gate : @StateMachine TurnstileState AnyEvent :=
  set_listeners [Some 5] (after (new_StateMachine (Some gate_config))).

(** ** The listener set *)

Lemma members_elem (d : list (option nat)) l : l ∈ members d <-> Some l ∈ d.
Proof.
  unfold members. rewrite list_elem_of_omap. split.
  - intros (x & Hx & Hid). cbn in Hid. by subst.
  - intros H. by exists (Some l).
Qed.

Lemma members_app (d1 d2 : list (option nat)) :
  members (d1 ++ d2) = members d1 ++ members d2.
Proof. apply omap_app. Qed.

Lemma set_has_true (d : list (option nat)) l : set_has l d = true <-> l ∈ members d.
Proof. unfold set_has. by rewrite bool_decide_eq_true, members_elem. Qed.

Lemma set_add_old (d : list (option nat)) l :
  l ∈ members d -> set_add l d = d.
Proof. intros H. unfold set_add. by rewrite (proj2 (set_has_true d l) H). Qed.

Lemma set_add_new (d : list (option nat)) l :
  l ∉ members d -> set_add l d = d ++ [Some l].
Proof.
  intros H. unfold set_add. destruct (set_has l d) eqn:Hhas; [ | done].
  by apply set_has_true in Hhas.
Qed.

Lemma set_add_member (d : list (option nat)) l : l ∈ members (set_add l d).
Proof.
  destruct (decide (l ∈ members d)) as [H|H].
  - by rewrite set_add_old.
  - rewrite set_add_new, members_app by done. apply elem_of_app. right. cbn. set_solver.
Qed.


Lemma set_add_wf (d : list (option nat)) l : set_wf d -> set_wf (set_add l d).
Proof.
  intros Hwf. destruct (decide (l ∈ members d)) as [H|H].
  - by rewrite set_add_old.
  - rewrite set_add_new by done. unfold set_wf. rewrite members_app. cbn.
    apply NoDup_app. split; [exact Hwf | ]. split.
    + intros x Hx Hx'. apply list_elem_of_singleton in Hx'. by subst.
    + apply NoDup_singleton.
Qed.

Lemma set_delete_lookup (d : list (option nat)) b j l :
  set_delete b d !! j = Some (Some l) <-> d !! j = Some (Some l) /\ l <> b.
Proof.
  unfold set_delete. rewrite list_lookup_fmap.
  destruct (d !! j) as [[x|]|]; cbn.
  - case_decide as Hx.
    + injection Hx as ->. split; [done | intros [[= ->] Hne]; done].
    + split.
      * intros [= ->]. split; [done | intros ->; done].
      * by intros [H _].
  - split; [done | by intros [H _]].
  - split; [done | by intros [H _]].
Qed.

Lemma set_delete_members (d : list (option nat)) b l :
  l ∈ members (set_delete b d) <-> l ∈ members d /\ l <> b.
Proof.
  rewrite !members_elem, !list_elem_of_lookup. split.
  - intros [j Hj]. apply set_delete_lookup in Hj as [Hj Hne]. eauto.
  - intros [[j Hj] Hne]. exists j. by apply set_delete_lookup.
Qed.





(** ** The machine *)

Section Properties.

#[local] Set Default Proof Using "Type".

Context {State Event : Type}.
Context `{!BaseStateOrEvent State} `{!BaseStateOrEvent Event}.
Variable listener_fn :
  Listener -> option State -> State -> option Event -> @Prog State Event unit.

Abbreviation SM := (@StateMachine State Event).
Abbreviation OnEnterOrExitConfiguration := (State -> @Prog State Event unit).
Abbreviation OnEventConfiguration :=
  (State -> Event -> @Prog State Event (@Transition State Event)).
Abbreviation Mon Σ A := (@M State Event Σ A).
Abbreviation keeps := (@keeps State Event).
Abbreviation keeping := (@keeping State Event).
Abbreviation api_keeping := (@api_keeping State Event).
Abbreviation after_observing := (@after_observing State Event).

(** *** The monad *)

Lemma bind_Normal {Σ A B} (x : Mon Σ A) (f : A -> Mon Σ B) this this' t a :
  x this = Out this' t (Normal a) ->
  bind x f this =
    Out (after (f a this')) (t ++ observed (f a this')) (completion (f a this')).
Proof. intros Hx. unfold bind. rewrite Hx. reflexivity. Qed.

Lemma bind_Throws {Σ A B} (x : Mon Σ A) (f : A -> Mon Σ B) this this' t e :
  x this = Out this' t (Throws e) ->
  bind x f this = Out this' t (Throws e).
Proof. intros Hx. unfold bind. rewrite Hx. reflexivity. Qed.

Lemma Outcome_eta {Σ R} (o : @Outcome State Event Σ R) :
  Out (after o) (observed o) (completion o) = o.
Proof. destruct o; reflexivity. Qed.

Lemma bind_pure {Σ A B} (x : Mon Σ A) (f : A -> Mon Σ B) this a :
  x this = Out this [] (Normal a) ->
  bind x f this = f a this.
Proof. intros Hx. unfold bind. rewrite Hx. cbn. apply Outcome_eta. Qed.

Lemma bind_gets {Σ A B} (g : Σ -> A) (f : A -> Mon Σ B) this :
  bind (gets g) f this = f (g this) this.
Proof. apply bind_pure. reflexivity. Qed.

Lemma bind_modify {Σ B} (g : Σ -> Σ) (f : unit -> Mon Σ B) this :
  bind (modify g) f this = f tt (g this).
Proof. unfold bind, modify; cbn. apply Outcome_eta. Qed.

Lemma read_currentState_Some (this : SM) s :
  _currentState this = Some s ->
  read_currentState this = Out this [] (Normal s).
Proof. intros H. unfold read_currentState. rewrite H. reflexivity. Qed.

Lemma bind_read {B} (f : State -> Mon SM B) (this : SM) s :
  _currentState this = Some s ->
  bind read_currentState f this = f s this.
Proof. intros H. apply bind_pure. by apply read_currentState_Some. Qed.

Lemma bind_read_for_lookup {B} (f : State -> Mon SM B) (this : SM) s :
  _currentState this = Some s ->
  bind read_state_for_lookup f this = f s this.
Proof.
  intros H. apply bind_pure. unfold read_state_for_lookup. by rewrite H.
Qed.

(** *** Dispatch: the two ways it can go *)

Lemma transition_no_rule fuel (this : SM) event current :
  _currentState this = Some current ->
  finds_nothing this current event ->
  transition listener_fn fuel event this = Out this [] (Normal tt).
Proof.
  intros Hcur Hnothing.
  unfold transition, transition_with.
  rewrite (bind_read_for_lookup _ _ _ Hcur), bind_gets.
  unfold finds_nothing in Hnothing.
  destruct (_configuration this !! type current) as [d|] eqn:Hd.
  - destruct Hnothing as (Hrule & Hproto & Hordinary). rewrite Hrule, Hproto.
    rewrite decide_False by (by intros [? ?]). by rewrite decide_False.
  - destruct Hnothing as (Hproto & Hordinary). rewrite Hproto.
    rewrite decide_False by (by intros [? ?]). by rewrite decide_False.
Qed.

Lemma transition_inherited fuel (this : SM) event current d :
  _currentState this = Some current ->
  _configuration this !! type current = Some d ->
  on d !! type event = None ->
  on d !! "__proto__" = None ->
  inherited (type event) ->
  transition listener_fn fuel event this =
  apply_inherited listener_fn (api_at listener_fn fuel) fuel d current event this.
Proof.
  intros Hcur Hd Hon Hproto Hin.
  unfold transition, transition_with.
  rewrite (bind_read_for_lookup _ _ _ Hcur), bind_gets, Hd, Hon, Hproto.
  rewrite decide_False by (by intros [? ?]). by rewrite decide_True.
Qed.

Lemma transition_found fuel (this : SM) event current d onEvent :
  _currentState this = Some current ->
  _configuration this !! type current = Some d ->
  on d !! type event = Some onEvent ->
  transition listener_fn fuel event this =
  apply_rule listener_fn (api_at listener_fn fuel) fuel d onEvent current event this.
Proof.
  intros Hcur Hd Hon.
  unfold transition, transition_with.
  rewrite (bind_read_for_lookup _ _ _ Hcur), bind_gets, Hd, Hon. reflexivity.
Qed.

(** *** What no callback can change *)

Lemma keeps_refl (this : SM) : keeps this this.
Proof. split; auto. Qed.

Lemma keeps_trans (this1 this2 this3 : SM) :
  keeps this1 this2 -> keeps this2 this3 -> keeps this1 this3.
Proof. intros [H1 H2] [H3 H4]. split; [congruence | auto]. Qed.

Lemma keeping_bind {A B} (x : Mon SM A) (f : A -> Mon SM B) :
  keeping x -> (forall a, keeping (f a)) -> keeping (bind x f).
Proof.
  intros Hx Hf this. destruct (Hx this) as [Hcfg Hsome]. unfold bind, keeps_if.
  destruct (completion (x this)) as [a| | |]; cbn [after completion];
    try (split; [exact Hcfg | done]).
  destruct (Hf a (after (x this))) as [Hcfg' Hsome'].
  split; [by rewrite Hcfg' | ]. intros H. apply Hsome', Hsome, H.
Qed.

Lemma keeping_pure {A} (x : Mon SM A) :
  (forall this, after (x this) = this) -> keeping x.
Proof.
  intros Hx this. split; rewrite Hx; [done | ].
  intros H. by destruct (completion (x this)).
Qed.

Lemma keeping_ret {A} (a : A) : keeping (ret a : Mon SM A).
Proof. by apply keeping_pure. Qed.

Lemma keeping_throw {A} e : keeping (throw e : Mon SM A).
Proof. by apply keeping_pure. Qed.

Lemma keeping_gets {A} (g : SM -> A) : keeping (gets g : Mon SM A).
Proof. by apply keeping_pure. Qed.

Lemma keeping_read : keeping (read_currentState : Mon SM State).
Proof.
  apply keeping_pure. intros this. unfold read_currentState.
  by destruct (_currentState this).
Qed.

Lemma keeping_read_for_lookup : keeping (read_state_for_lookup : Mon SM State).
Proof.
  apply keeping_pure. intros this. unfold read_state_for_lookup.
  by destruct (_currentState this).
Qed.

Lemma keeping_unsubscribe l : keeping (unsubscribe l : Mon SM unit).
Proof. intros this. split; cbn; auto. Qed.

Lemma keeping_run_prog api {R} (p : Prog R) :
  api_keeping api -> keeping (run_prog api p).
Proof.
  intros (Hg & Ht & Hs & Hu).
  induction p as [r|e|k IH|e k IH|l k IH|l k IH]; cbn [run_prog].
  - apply keeping_ret.
  - apply keeping_throw.
  - apply keeping_bind; auto.
  - apply keeping_bind; auto.
  - apply keeping_bind; auto.
  - apply keeping_bind; auto.
Qed.

Lemma keeping_invoke api {R} c (p : Prog R) :
  api_keeping api -> keeping (invoke api c p).
Proof. intros Hapi this. apply (keeping_run_prog api p Hapi). Qed.

Lemma keeping_invoke_opt api c cb s :
  api_keeping api -> keeping (invoke_opt api c cb s).
Proof.
  intros Hapi. destruct cb; cbn; [by apply keeping_invoke | apply keeping_ret].
Qed.

Lemma keeping_notify api fuel : api_keeping api ->
  forall index previous current event,
  keeping (notify listener_fn api fuel index previous current event).
Proof.
  intros Hapi. induction fuel as [|fuel IH]; intros index p c ev this; cbn [notify].
  - destruct (_listeners this !! index); by apply keeping_pure.
  - destruct (_listeners this !! index) as [[l|]|];
      [ | apply IH | by apply keeping_pure].
    apply keeping_bind; [by apply keeping_invoke | intros _; apply IH].
Qed.

Lemma keeping_apply_inherited api fuel d current event :
  api_keeping api -> keeping (apply_inherited listener_fn api fuel d current event).
Proof.
  intros Hapi. unfold apply_inherited.
  repeat case_decide; try apply keeping_throw.
  - apply keeping_bind; [apply keeping_read | intros previousState].
    apply keeping_bind; [by apply keeping_invoke_opt | intros _].
    apply keeping_bind; [intros this; split; cbn; eauto | intros _].
    apply keeping_bind; [apply keeping_gets | intros cfg].
    apply keeping_bind; [by apply keeping_invoke_opt | intros _].
    by apply keeping_notify.
  - apply keeping_bind; [apply keeping_read | intros previousState].
    apply keeping_bind; [by apply keeping_invoke_opt | intros _].
    intros this. by split.
Qed.

Lemma keeping_apply_rule api fuel d onEvent current event :
  api_keeping api -> keeping (apply_rule listener_fn api fuel d onEvent current event).
Proof.
  intros Hapi. unfold apply_rule.
  apply keeping_bind; [by apply keeping_invoke | intros tr].
  apply keeping_bind; [apply keeping_read | intros previousState].
  apply keeping_bind.
  - destruct (state tr); [ | apply keeping_ret].
    apply keeping_bind; [by apply keeping_invoke_opt | intros _].
    apply keeping_bind; [intros this; split; cbn; eauto | intros _].
    apply keeping_bind; [apply keeping_gets | intros cfg].
    by apply keeping_invoke_opt.
  - intros _. apply keeping_bind; [by apply keeping_notify | intros _].
    destruct (sideEffect tr); by apply keeping_pure.
Qed.

Lemma keeping_transition_with api fuel event :
  api_keeping api -> keeping (transition_with listener_fn api fuel event).
Proof.
  intros Hapi. unfold transition_with.
  apply keeping_bind; [apply keeping_read_for_lookup | intros current].
  apply keeping_bind; [apply keeping_gets | intros cfg].
  destruct (cfg !! type current) as [d|];
    [ | repeat case_decide; by apply keeping_pure].
  destruct (on d !! type event);
    [ | repeat case_decide;
        [by apply keeping_pure | by apply keeping_apply_inherited | apply keeping_ret]].
  by apply keeping_apply_rule.
Qed.

Lemma keeping_subscribe_with api l :
  api_keeping api -> keeping (subscribe_with listener_fn api l).
Proof.
  intros Hapi. unfold subscribe_with.
  apply keeping_bind; [intros this; split; cbn; auto | intros _].
  apply keeping_bind; [apply keeping_read | intros current].
  apply keeping_bind; [by apply keeping_invoke | intros _; apply keeping_ret].
Qed.

Lemma api_at_keeping fuel : api_keeping (api_at listener_fn fuel).
Proof.
  induction fuel as [|fuel IH]; cbn [api_at]; (split; [ | split; [ | split]]); cbn.
  - apply keeping_gets.
  - intros e. by apply keeping_pure.
  - intros l. by apply keeping_pure.
  - apply keeping_unsubscribe.
  - apply keeping_gets.
  - intros e. by apply keeping_transition_with.
  - intros l. apply keeping_bind; [by apply keeping_subscribe_with | intros _; apply keeping_ret].
  - apply keeping_unsubscribe.
Qed.

Lemma call_keeps fuel {R} (p : Prog R) this :
  keeps_if this (call listener_fn fuel p this).
Proof. apply keeping_run_prog, api_at_keeping. Qed.

(** *** The notification round *)

Lemma after_observing_nil {Σ R} (o : @Outcome State Event Σ R) :
  after_observing [] o = o.
Proof. apply Outcome_eta. Qed.

Lemma after_observing_app {Σ R} t1 t2 (o : @Outcome State Event Σ R) :
  after_observing t1 (after_observing t2 o) = after_observing (t1 ++ t2) o.
Proof. unfold after_observing; cbn. by rewrite app_assoc. Qed.

Lemma bind_step {Σ A B} (x : Mon Σ A) (f : A -> Mon Σ B) this this' t a :
  x this = Out this' t (Normal a) ->
  bind x f this = after_observing t (f a this').
Proof. apply bind_Normal. Qed.

Lemma invoke_eq api {R} c (p : Prog R) (this this' : SM) nested r :
  run_prog api p this = Out this' nested r ->
  invoke api c p this = Out this' [Invoked c (_currentState this) nested] r.
Proof. intros H. unfold invoke. rewrite H. reflexivity. Qed.




(** Whatever the listeners do, a round only ever calls listeners, and
    with the arguments of the round. *)
Lemma notify_all api previous current event fuel :
  forall index (this : SM),
  Forall (notification_of previous current event)
    (observed (notify listener_fn api fuel index previous current event this)).
Proof.
  induction fuel as [|fuel IH]; intros index this; cbn [notify].
  - destruct (_listeners this !! index); constructor.
  - destruct (_listeners this !! index) as [[l|]|]; [ | apply IH | constructor].
    unfold bind, invoke; cbn.
    destruct (completion (run_prog _ _ this)); cbn.
    + constructor; [cbn; auto | apply IH].
    + constructor; [cbn; auto | constructor].
    + constructor; [cbn; auto | constructor].
    + constructor; [cbn; auto | constructor].
Qed.

Lemma invoke_opt_eq fuel c cb s (this this' : SM) nested r :
  call_opt listener_fn fuel cb s this = Out this' nested r ->
  invoke_opt (api_at listener_fn fuel) c cb s this =
    Out this' (called_if cb c (_currentState this) nested) r /\
  (cb = None -> this' = this /\ nested = []).
Proof.
  destruct cb as [f|]; cbn.
  - intros H. split; [by apply invoke_eq | done].
  - intros H. injection H as <- <- <-. by split.
Qed.


Lemma observed_then_schedule (x : Mon SM unit) se (this : SM) :
  observed ((x;; match se with
                 | Some f => emit (SetTimeout f)
                 | None => ret tt
                 end) this) =
  observed (x this) ++
  match completion (x this) with
  | Normal _ => scheduled se
  | _ => []
  end.
Proof.
  unfold bind. destruct (completion (x this)); cbn.
  - destruct se; reflexivity.
  - by rewrite app_nil_r.
  - by rewrite app_nil_r.
  - by rewrite app_nil_r.
Qed.

(** *** Dispatch *)


Lemma transition_stays fuel (this : SM) event current d onEvent se previous this1 n1 :
  _currentState this = Some current ->
  _configuration this !! type current = Some d ->
  on d !! type event = Some onEvent ->
  call listener_fn fuel (onEvent current event) this =
    Out this1 n1 (Normal (dontTransition se)) ->
  _currentState this1 = Some previous ->
  transition listener_fn fuel event this =
  after_observing [Invoked (OnEventCall current event) (Some current) n1]
    ((notify listener_fn (api_at listener_fn fuel) fuel 0
        (Some previous) previous (Some event);;
      match se with
      | Some f => emit (SetTimeout f)
      | None => ret tt
      end) this1).
Proof.
  intros Hcur Hd Hon Hrule Hprev.
  rewrite (transition_found _ _ _ _ _ _ Hcur Hd Hon). unfold apply_rule.
  rewrite (bind_step _ _ _ _ _ _ (invoke_eq _ _ _ _ _ _ _ Hrule)).
  rewrite (bind_read _ _ _ Hprev). cbn [state dontTransition from_option id sideEffect].
  rewrite bind_pure with (a := tt) by reflexivity. by rewrite Hcur.
Qed.







Lemma calm_Return fuel {R} (r : R) : calm listener_fn fuel (Return r).
Proof. intros this. by exists this, [], r. Qed.





(** A dispatch of an event of discriminant [constructor] for which the
    state definition has no rule. *)
Lemma transition_constructor fuel (this : SM) event current d this2 n2 this3 n3 :
  _currentState this = Some current ->
  _configuration this !! type current = Some d ->
  on d !! type event = None ->
  on d !! "__proto__" = None ->
  type event = "constructor" ->
  call_opt listener_fn fuel (onExit d) current this = Out this2 n2 (Normal tt) ->
  call_opt listener_fn fuel (_configuration this !! type current ≫= onEnter) current
    (set_currentState current this2) = Out this3 n3 (Normal tt) ->
  transition listener_fn fuel event this =
  after_observing
    (called_if (onExit d) (OnExitCall (type current) current) (Some current) n2
     ++ called_if (_configuration this !! type current ≫= onEnter)
          (OnEnterCall (type current) current) (Some current) n3)
    (notify listener_fn (api_at listener_fn fuel) fuel 0
       (Some current) current (Some event) this3).
Proof.
  intros Hcur Hd Hon Hproto Hty Hexit Henter.
  rewrite (transition_inherited _ _ _ _ _ Hcur Hd Hon Hproto)
    by (unfold inherited; rewrite Hty; by apply (bool_decide_unpack _)).
  unfold apply_inherited. rewrite decide_True by exact Hty.
  rewrite (bind_read _ _ _ Hcur).
  assert (Hcfg2 : _configuration this2 = _configuration this).
  { destruct (onExit d) as [f|]; cbn in Hexit.
    - pose proof (call_keeps fuel (f current) this) as [H _].
      rewrite Hexit in H. exact H.
    - by injection Hexit as <- _. }
  destruct (invoke_opt_eq fuel (OnExitCall (type current) current) _ _ _ _ _ _ Hexit)
    as [Hexit' _].
  rewrite Hcur in Hexit'.
  rewrite (bind_step _ _ _ _ _ _ Hexit'), bind_modify, bind_gets.
  cbn [_configuration set_currentState]. rewrite Hcfg2.
  destruct (invoke_opt_eq fuel (OnEnterCall (type current) current) _ _ _ _ _ _ Henter)
    as [Henter' _].
  rewrite (bind_step _ _ _ _ _ _ Henter'), after_observing_app. reflexivity.
Qed.

(** C7, as the code has it.  A dispatch that finds nothing under the
    discriminant of the state, or nothing under the discriminant of the
    event in the entry of the state, returns at once: the object is what it
    was (current state and listener set included) and no callback has been
    called.  But the two lookups read plain objects, and a discriminant
    that names a member of [Object.prototype] finds that member where the
    configuration has no rule: an event of discriminant [constructor] is
    not ignored, the machine exits and enters the state it is in, and the
    listeners are called with that state twice. *)
Theorem transition_without_rule fuel (this : SM) event current :
  _currentState this = Some current ->
  (finds_nothing this current event ->
   transition listener_fn fuel event this = Out this [] (Normal tt)) /\
  (forall d this2 n2 this3 n3,
     _configuration this !! type current = Some d ->
     on d !! type event = None ->
     on d !! "__proto__" = None ->
     type event = "constructor" ->
     call_opt listener_fn fuel (onExit d) current this = Out this2 n2 (Normal tt) ->
     call_opt listener_fn fuel (_configuration this !! type current ≫= onEnter) current
       (set_currentState current this2) = Out this3 n3 (Normal tt) ->
     let round :=
       notify listener_fn (api_at listener_fn fuel) fuel 0
         (Some current) current (Some event) this3 in
     transition listener_fn fuel event this =
       Out (after round)
         (called_if (onExit d) (OnExitCall (type current) current) (Some current) n2
          ++ called_if (_configuration this !! type current ≫= onEnter)
               (OnEnterCall (type current) current) (Some current) n3
          ++ observed round)
         (completion round)).
Proof.
  intros Hcur. split.
  - intros Hnothing. by apply transition_no_rule with (current := current).
  - intros d this2 n2 this3 n3 Hd Hon Hproto Hty Hexit Henter round.
    rewrite (transition_constructor _ _ _ _ _ _ _ _ _
               Hcur Hd Hon Hproto Hty Hexit Henter).
    unfold after_observing. fold round. by rewrite <- app_assoc.
Qed.

Lemma run_prog_quiet fuel {R} (p : Prog R) (this : SM) :
  quiet p ->
  after (call listener_fn fuel p this) = this /\
  observed (call listener_fn fuel p this) = [].
Proof.
  unfold call.
  induction p as [r|e|k IH|e k IH|l k IH|l k IH]; cbn [run_prog quiet];
    intros Hq; try done.
  assert (Hstate : api_state (api_at listener_fn fuel) = gets _currentState)
    by by destruct fuel.
  rewrite Hstate, bind_gets. by apply IH.
Qed.

(** C6, as the code has it.  When the rule throws, the dispatch stops
    there and undoes nothing: the exception is
    the outcome of [transition], the rule is the only callback the dispatch
    has called (no [onExit], no [onEnter], no listener), nothing is
    scheduled, and the object is as the rule left it; it is the object of
    before the dispatch when the rule made no call into the machine. *)
Theorem transition_rule_throws fuel (this : SM) event current d onEvent
    this1 n1 err :
  _currentState this = Some current ->
  _configuration this !! type current = Some d ->
  on d !! type event = Some onEvent ->
  call listener_fn fuel (onEvent current event) this = Out this1 n1 (Throws err) ->
  transition listener_fn fuel event this =
    Out this1 [Invoked (OnEventCall current event) (Some current) n1] (Throws err) /\
  (quiet (onEvent current event) -> this1 = this /\ n1 = []).
Proof.
  intros Hcur Hd Hon Hrule. split.
  - rewrite (transition_found _ _ _ _ _ _ Hcur Hd Hon). unfold apply_rule.
    rewrite (bind_Throws _ _ _ _ _ _ (invoke_eq _ _ _ _ _ _ _ Hrule)).
    by rewrite Hcur.
  - intros Hq.
    destruct (run_prog_quiet fuel (onEvent current event) this Hq) as [Hafter Hobs].
    rewrite Hrule in Hafter, Hobs. by cbn in *.
Qed.

Lemma subscribe_run fuel (this : SM) listener s :
  _currentState this = Some s ->
  let added := set_listeners (set_add listener (_listeners this)) this in
  let body := call listener_fn fuel (listener_fn listener None s None) added in
  subscribe listener_fn fuel listener this =
    Out (after body)
      [Invoked (ListenerCall listener None s None) (Some s) (observed body)]
      match completion body with
      | Normal _ => Normal (unsubscribe listener)
      | Throws e => Throws e
      | OutOfFuel => OutOfFuel
      | Unmodelled => Unmodelled
      end.
Proof.
  intros Hcur added body.
  unfold subscribe, subscribe_with. rewrite bind_modify. fold added.
  rewrite (bind_read _ added s) by exact Hcur.
  unfold bind, invoke. fold (call listener_fn fuel (listener_fn listener None s None) added).
  fold body. cbn [completion after observed].
  destruct (completion body); cbn; rewrite ?app_nil_r; by rewrite ?Hcur.
Qed.

(** C8.  [subscribe] adds the listener, then calls it once with
    [(null, currentState, null)], and only then returns the unsubscribe
    function: the listener body runs on the object that already holds the
    listener, and the one call is all that [subscribe] itself does. *)
Theorem subscribe_notifies_at_once fuel (this : SM) listener s :
  _currentState this = Some s ->
  let added := set_listeners (set_add listener (_listeners this)) this in
  let body := call listener_fn fuel (listener_fn listener None s None) added in
  listener ∈ members (_listeners added) /\
  subscribe listener_fn fuel listener this =
    Out (after body)
      [Invoked (ListenerCall listener None s None) (Some s) (observed body)]
      match completion body with
      | Normal _ => Normal (unsubscribe listener)
      | Throws e => Throws e
      | OutOfFuel => OutOfFuel
      | Unmodelled => Unmodelled
      end.
Proof.
  intros Hcur added body. split.
  - apply set_add_member.
  - by apply subscribe_run.
Qed.

(** *** Subscribing and unsubscribing *)

Lemma subscribe_calm fuel (this : SM) listener s :
  _currentState this = Some s ->
  calm listener_fn fuel (listener_fn listener None s None) ->
  exists this' nested,
    subscribe listener_fn fuel listener this =
      Out this' [Invoked (ListenerCall listener None s None) (Some s) nested]
        (Normal (unsubscribe listener)) /\
    _listeners this' = set_add listener (_listeners this) /\
    keeps this this'.
Proof.
  intros Hcur Hcalm.
  pose proof (subscribe_run fuel this listener s Hcur) as Hsub.
  cbv zeta in Hsub.
  destruct (Hcalm (set_listeners (set_add listener (_listeners this)) this))
    as (this' & nested & [] & Hrun & Hl).
  pose proof (call_keeps fuel (listener_fn listener None s None)
                (set_listeners (set_add listener (_listeners this)) this)) as Hk.
  rewrite Hrun in Hsub, Hk. unfold keeps_if in Hk.
  cbn [after observed completion] in Hsub, Hk.
  exists this', nested. split; [exact Hsub | ]. split; [exact Hl | exact Hk].
Qed.


Lemma unsubscribe_removes (this : SM) l :
  unsubscribe l this =
    Out (set_listeners (set_delete l (_listeners this)) this) [] (Normal tt) /\
  l ∉ members (_listeners (after (unsubscribe l this))).
Proof.
  split; [reflexivity | ]. cbn. rewrite set_delete_members. by intros [_ H].
Qed.





(** *** Construction *)

Lemma run_prog_unbound {R} (p : Prog R) (this : SM) :
  after (run_prog api_unbound p this) = this /\
  observed (run_prog api_unbound p this) = [].
Proof.
  induction p as [r|e|k IH|e k IH|l k IH|l k IH]; cbn; done.
Qed.

(** The constructor, once the configuration callback has returned. *)
Lemma constructor_validates (callback : @ConfigCallback State Event) this1 n1 :
  callback initialState_entry state_entry (unshift "config" fresh) =
    Out this1 n1 (Normal tt) ->
  new_StateMachine (Some callback) =
  after_observing n1
    match _currentState this1 with
    | None => Out (shift this1) [] (Throws (Error "No initial state provided"))
    | Some current =>
        if decide (size (_configuration this1) = 0)
        then Out (shift this1) [] (Throws (Error "No state definition was provided"))
        else invoke_opt api_unbound (OnEnterCall (type current) current)
               (_configuration this1 !! type current ≫= onEnter) current
               (shift this1)
    end.
Proof.
  intros Hcb. unfold new_StateMachine, constructor.
  rewrite bind_modify, (bind_step _ _ _ _ _ _ Hcb), bind_modify, bind_gets.
  cbn [shift set_scopeStack _currentState].
  destruct (_currentState this1) as [current|]; [ | reflexivity].
  rewrite bind_gets. change (_configuration (shift this1)) with (_configuration this1).
  by case_decide.
Qed.



(** *** The scope guard *)

Lemma _checkConfigScope_rejects (this : SM) :
  head (_scopeStack this) <> Some "config" ->
  _checkConfigScope this = Out this [] (Throws (Error config_scope_message)).
Proof. intros H. unfold _checkConfigScope. by rewrite decide_False. Qed.

Lemma _checkStateScope_rejects name (this : SM) :
  head (_scopeStack this) <> Some "state" ->
  _checkStateScope name this =
    Out this []
      (Throws (Error (String.append "Call to `"
         (String.append name "` is allowed only from within a state callback")))).
Proof. intros H. unfold _checkStateScope. by rewrite decide_False. Qed.

(** What holds of C5: an entry point called while its scope tag is not on
    top of the stack throws and changes nothing, whether the stack holds
    another tag or is empty (as it is once the constructor is done); the
    message of [initialState], [onEnter], [onExit] and [on] names the
    entry point. *)
Lemma scope_guard_rejects (this : SM) (local : @StateConfiguration State Event) :
  (head (_scopeStack this) <> Some "config" ->
   forall s, exists message,
     initialState_entry s this = Out this [] (Throws (Error message)) /\
     names "initialState" message = true) /\
  (head (_scopeStack this) <> Some "state" ->
   (forall cb, exists message,
      onEnter_entry cb (local, this) = Out (local, this) [] (Throws (Error message)) /\
      names "onEnter" message = true) /\
   (forall cb, exists message,
      onExit_entry cb (local, this) = Out (local, this) [] (Throws (Error message)) /\
      names "onExit" message = true) /\
   (forall ty cb, exists message,
      on_entry ty cb (local, this) = Out (local, this) [] (Throws (Error message)) /\
      names "on" message = true)).
Proof.
  split.
  - intros H s. exists config_scope_message. split; [ | reflexivity].
    unfold initialState_entry.
    by rewrite (bind_Throws _ _ _ _ _ _ (_checkConfigScope_rejects this H)).
  - intros H. repeat split; intros; eexists;
      (split;
       [ unfold onEnter_entry, onExit_entry, on_entry, bind, outer; cbn [snd fst];
         rewrite (_checkStateScope_rejects _ this H); reflexivity
       | reflexivity ]).
Qed.

(** C5, where the code departs from it: [state] called out of scope is
    rejected through [_checkConfigScope], whose message is fixed; it names
    [initialState], not [state]. *)
Theorem state_guard_names_initialState (this : SM) ty
    (stateDefinitionCallback : @StateDefinitionCallback State Event) :
  head (_scopeStack this) <> Some "config" ->
  exists message,
    state_entry ty stateDefinitionCallback this =
      Out this [] (Throws (Error message)) /\
    names "state" message = false /\
    names "initialState" message = true.
Proof.
  intros H. exists config_scope_message. split; [ | by split].
  unfold state_entry.
  by rewrite (bind_Throws _ _ _ _ _ _ (_checkConfigScope_rejects this H)).
Qed.

(** *** Configurations written down *)

Lemma state_call_run (c : @StateCall State Event)
    (local : @StateConfiguration State Event) (this : SM) :
  head (_scopeStack this) = Some "state" ->
  match c with
  | CallOnEnter f => onEnter_entry f
  | CallOnExit f => onExit_entry f
  | CallOn ty rule => on_entry ty rule
  end (local, this) = Out (record_call local c, this) [] (Normal tt).
Proof.
  intros Hscope.
  assert (Hcheck : forall name, _checkStateScope name this = Out this [] (Normal tt)).
  { intros name. unfold _checkStateScope. by rewrite decide_True. }
  destruct c as [f|f|ty rule];
    unfold onEnter_entry, onExit_entry, on_entry, bind, outer; cbn [snd fst];
    rewrite Hcheck; reflexivity.
Qed.

Lemma state_script_run (calls : list (@StateCall State Event)) :
  forall (local : @StateConfiguration State Event) (this : SM),
  head (_scopeStack this) = Some "state" ->
  state_script_from onEnter_entry onExit_entry on_entry calls (local, this) =
    Out (definition_after calls local, this) [] (Normal tt).
Proof.
  induction calls as [|c rest IH]; intros local this Hscope; [reflexivity | ].
  cbn [state_script_from].
  rewrite (bind_step _ _ _ _ _ _ (state_call_run c local this Hscope)).
  rewrite (IH _ this Hscope). reflexivity.
Qed.

Lemma initialState_entry_run (this : SM) s :
  head (_scopeStack this) = Some "config" ->
  initialState_entry s this = Out (set_currentState s this) [] (Normal tt).
Proof.
  intros Hscope. unfold initialState_entry, bind, _checkConfigScope.
  by rewrite decide_True.
Qed.

Lemma state_entry_run (this : SM) ty (body : list (@StateCall State Event)) :
  head (_scopeStack this) = Some "config" ->
  state_entry ty (state_script body) this =
    Out {| _currentState := _currentState this;
           _configuration := <[ty := described_definition body]> (_configuration this);
           _listeners := _listeners this;
           _scopeStack := _scopeStack this |}
      [] (Normal tt).
Proof.
  intros Hscope. unfold state_entry.
  rewrite bind_pure with (a := tt)
    by (unfold _checkConfigScope; by rewrite decide_True).
  rewrite bind_modify.
  assert (Hlocal :
    with_local {| onEnter := None; onExit := None; on := ∅ |}
      (state_script body onEnter_entry onExit_entry on_entry)
      (unshift "state" this) =
    Out (unshift "state" this) [] (Normal (described_definition body))).
  { unfold with_local, state_script.
    by rewrite (state_script_run body _ (unshift "state" this) eq_refl). }
  rewrite (bind_step _ _ _ _ _ _ Hlocal), !bind_modify. reflexivity.
Qed.

(** Running a written-down configuration in the configuration scope. *)
Lemma config_script_run (calls : list (@ConfigCall State Event)) :
  forall (this : SM),
  head (_scopeStack this) = Some "config" ->
  config_script_from initialState_entry state_entry calls this =
    Out {| _currentState := initial_after calls (_currentState this);
           _configuration := table_after calls (_configuration this);
           _listeners := _listeners this;
           _scopeStack := _scopeStack this |}
      [] (Normal tt).
Proof.
  induction calls as [|c rest IH]; intros this Hscope.
  - by destruct this.
  - cbn [config_script_from]. destruct c as [s|ty body].
    + rewrite (bind_step _ _ _ _ _ _ (initialState_entry_run this s Hscope)).
      rewrite (IH (set_currentState s this) Hscope). reflexivity.
    + rewrite (bind_step _ _ _ _ _ _ (state_entry_run this ty body Hscope)).
      rewrite IH by exact Hscope. reflexivity.
Qed.

Lemma constructor_on_script (calls : list (@ConfigCall State Event)) :
  new_StateMachine (Some (config_script calls)) =
  match initial_after calls None with
  | None =>
      Out (described_machine calls) [] (Throws (Error "No initial state provided"))
  | Some s0 =>
      if decide (size (table_after calls ∅) = 0)
      then Out (described_machine calls) []
             (Throws (Error "No state definition was provided"))
      else
        let enter := table_after calls ∅ !! type s0 ≫= onEnter in
        Out (described_machine calls)
          (called_if enter (OnEnterCall (type s0) s0) (Some s0) [])
          match enter with
          | Some f => completion (run_prog api_unbound (f s0) (described_machine calls))
          | None => Normal tt
          end
  end.
Proof.
  pose (this1 := {| _currentState := initial_after calls None;
                    _configuration := table_after calls ∅;
                    _listeners := [];
                    _scopeStack := ["config"] |} : SM).
  assert (Hrun : config_script calls initialState_entry state_entry
                   (unshift "config" fresh) = Out this1 [] (Normal tt)).
  { apply (config_script_run calls (unshift "config" fresh) eq_refl). }
  rewrite (constructor_validates _ _ _ Hrun), after_observing_nil.
  change (shift this1) with (described_machine calls).
  change (_currentState this1) with (initial_after calls None).
  change (_configuration this1) with (table_after calls ∅).
  destruct (initial_after calls None) as [s0|] eqn:Hinitial; [ | reflexivity].
  case_decide; [reflexivity | ].
  cbv zeta. destruct (table_after calls ∅ !! type s0 ≫= onEnter) as [f|];
    [ | reflexivity].
  cbn [invoke_opt called_if]. unfold invoke.
  destruct (run_prog_unbound (f s0) (described_machine calls)) as [Hafter Hobserved].
  rewrite Hafter, Hobserved. unfold described_machine at 2. cbn [_currentState].
  by rewrite Hinitial.
Qed.

Lemma constructed_table (calls : list (@ConfigCall State Event)) :
  _configuration (after (new_StateMachine (Some (config_script calls)))) =
  table_after calls ∅.
Proof.
  rewrite (constructor_on_script calls).
  destruct (initial_after calls None); [ | reflexivity].
  case_decide; reflexivity.
Qed.

Lemma table_after_other ty (calls : list (@ConfigCall State Event)) :
  Forall (fun c => ~ defines_state ty c) calls ->
  forall configuration, table_after calls configuration !! ty = configuration !! ty.
Proof.
  unfold table_after.
  induction 1 as [|c rest Hc _ IH]; intros configuration; [reflexivity | ].
  cbn [fold_left]. rewrite IH.
  destruct c as [s|ty' body]; [reflexivity | ].
  cbn [record_state]. apply lookup_insert_ne. exact Hc.
Qed.

Lemma definition_after_other ty (calls : list (@StateCall State Event)) :
  Forall (fun c => ~ sets_rule ty c) calls ->
  forall local, on (definition_after calls local) !! ty = on local !! ty.
Proof.
  unfold definition_after.
  induction 1 as [|c rest Hc _ IH]; intros local; [reflexivity | ].
  cbn [fold_left]. rewrite IH.
  destruct c as [f|f|ty' rule]; [reflexivity.. | ].
  cbn [record_call on]. apply lookup_insert_ne. exact Hc.
Qed.

Lemma table_after_split (before : list (@ConfigCall State Event)) c later acc :
  table_after (before ++ c :: later) acc =
  table_after later (record_state (table_after before acc) c).
Proof. unfold table_after. by rewrite fold_left_app. Qed.

Lemma definition_after_split (before : list (@StateCall State Event)) c later acc :
  definition_after (before ++ c :: later) acc =
  definition_after later (record_call (definition_after before acc) c).
Proof. unfold definition_after. by rewrite fold_left_app. Qed.

Lemma plain_block_on (body : list (@StateCall State Event)) :
  plain_block body -> on (described_definition body) !! "__proto__" = None.
Proof.
  intros Hplain. unfold described_definition.
  by rewrite (definition_after_other _ _ Hplain).
Qed.

Lemma plain_table (calls : list (@ConfigCall State Event)) :
  plain calls ->
  forall configuration,
  table_after calls configuration !! "__proto__" = configuration !! "__proto__".
Proof.
  intros Hplain. apply table_after_other.
  eapply Forall_impl; [exact Hplain | ].
  intros [s|ty body]; cbn; [by intros _ [] | ]. intros [Hty _]. exact Hty.
Qed.

Lemma plain_middle (before : list (@ConfigCall State Event)) ty block later :
  plain (before ++ CallState ty block :: later) -> plain_block block.
Proof.
  intros Hplain. apply Forall_app in Hplain as [_ Hplain].
  apply Forall_cons in Hplain as [[_ Hblock] _]. exact Hblock.
Qed.

(** X1.  The constructor on a written-down configuration none of whose
    keys is ["__proto__"]: it throws "No initial state provided" when the
    list has no [initialState] call (even if it has no [state] call
    either), "No state definition was provided" when it has an
    [initialState] call but no [state] call, and otherwise leaves the
    described machine, with an empty scope stack, after calling the
    [onEnter] of the initial state if the described table has one; the
    table it leaves is one whose prototype was not replaced. *)
Theorem constructor_builds_described_machine (calls : list (@ConfigCall State Event)) :
  plain calls ->
  new_StateMachine (Some (config_script calls)) =
  match initial_after calls None with
  | None =>
      Out (described_machine calls) [] (Throws (Error "No initial state provided"))
  | Some s0 =>
      if decide (size (table_after calls ∅) = 0)
      then Out (described_machine calls) []
             (Throws (Error "No state definition was provided"))
      else
        let enter := table_after calls ∅ !! type s0 ≫= onEnter in
        Out (described_machine calls)
          (called_if enter (OnEnterCall (type s0) s0) (Some s0) [])
          match enter with
          | Some f => completion (run_prog api_unbound (f s0) (described_machine calls))
          | None => Normal tt
          end
  end /\
  _configuration (described_machine calls) !! "__proto__" = None.
Proof.
  intros Hplain. split; [apply constructor_on_script | ].
  apply (plain_table calls Hplain).
Qed.

(** X2.  Registering and finding.  On the machine the constructor builds
    from a written-down configuration, in a state of discriminant [ty], a
    dispatch of an event of discriminant [ev] goes on with the rule of the
    last [on(ev, ...)] call in the last [state(ty, ...)] block, and with
    the state definition of that block. *)
Theorem last_registered_rule_is_found fuel
    (before : list (@ConfigCall State Event)) ty blockBefore ev rule blockAfter
    later (this : SM) current event :
  let block := blockBefore ++ CallOn ev rule :: blockAfter in
  let calls := before ++ CallState ty block :: later in
  plain calls ->
  Forall (fun c => ~ defines_state ty c) later ->
  Forall (fun c => ~ sets_rule ev c) blockAfter ->
  completion (new_StateMachine (Some (config_script calls))) = Normal tt ->
  _configuration this =
    _configuration (after (new_StateMachine (Some (config_script calls)))) ->
  _currentState this = Some current ->
  type current = ty ->
  type event = ev ->
  transition listener_fn fuel event this =
  apply_rule listener_fn (api_at listener_fn fuel) fuel
    (described_definition block) rule current event this.
Proof.
  intros block calls _ Hlater Hafter _ Htable Hcur <- <-.
  rewrite (constructed_table calls) in Htable.
  apply (transition_found _ _ _ _ _ _ Hcur).
  - rewrite Htable. unfold calls.
    rewrite table_after_split, (table_after_other _ _ Hlater).
    cbn [record_state]. apply lookup_insert_eq.
  - unfold described_definition, block.
    rewrite definition_after_split, (definition_after_other _ _ Hafter).
    cbn [record_call on]. apply lookup_insert_eq.
Qed.

(** X3.  No merge.  A [state(ty, ...)] block replaces what earlier blocks
    for [ty] registered: on the machine the constructor builds, when the
    last block for [ty] has no [on(ev, ...)] call (and [ev] names no member
    of [Object.prototype]), a dispatch of [ev] in a state of discriminant
    [ty] does nothing, whatever the blocks before it registered. *)
Theorem later_block_replaces_earlier fuel
    (before : list (@ConfigCall State Event)) ty block later
    (this : SM) current event :
  let calls := before ++ CallState ty block :: later in
  plain calls ->
  Forall (fun c => ~ defines_state ty c) later ->
  Forall (fun c => ~ sets_rule (type event) c) block ->
  ~ inherited (type event) ->
  completion (new_StateMachine (Some (config_script calls))) = Normal tt ->
  _configuration this =
    _configuration (after (new_StateMachine (Some (config_script calls)))) ->
  _currentState this = Some current ->
  type current = ty ->
  transition listener_fn fuel event this = Out this [] (Normal tt).
Proof.
  intros calls Hplain Hlater Hblock Hordinary _ Htable Hcur <-.
  rewrite (constructed_table calls) in Htable.
  apply (transition_no_rule _ _ _ _ Hcur). unfold finds_nothing.
  rewrite Htable. unfold calls.
  rewrite table_after_split, (table_after_other _ _ Hlater).
  cbn [record_state]. rewrite lookup_insert_eq.
  split; [ | split; [ | exact Hordinary]].
  - unfold described_definition. by rewrite (definition_after_other _ _ Hblock).
  - apply plain_block_on. by apply (plain_middle before (type current) block later).
Qed.

(** *** What the running machine keeps

    The methods write the object at three places only: [transition]
    assigns [_currentState] (a state, or [undefined] on its way through
    [toString]), [subscribe] adds to [_listeners] and the unsubscribe
    function deletes from it.  A property that survives these writes
    survives every run of the methods and of the callbacks that use
    them. *)
Section Invariant.

Variable Inv : SM -> Prop.
Hypothesis Inv_set_currentState :
  forall s this, Inv this -> Inv (set_currentState s this).
Hypothesis Inv_clear_currentState :
  forall this, Inv this -> Inv (clear_currentState this).
Hypothesis Inv_add :
  forall l this, Inv this -> Inv (set_listeners (set_add l (_listeners this)) this).
Hypothesis Inv_delete :
  forall l this, Inv this -> Inv (set_listeners (set_delete l (_listeners this)) this).

#[local] Set Default Proof Using
  "Inv_set_currentState Inv_clear_currentState Inv_add Inv_delete".

Lemma preserving_bind {A B} (x : Mon SM A) (f : A -> Mon SM B) :
  preserving Inv x -> (forall a, preserving Inv (f a)) -> preserving Inv (bind x f).
Proof.
  intros Hx Hf this Hthis. unfold bind. specialize (Hx this Hthis).
  destruct (completion (x this)); cbn; auto. by apply Hf.
Qed.


Lemma preserving_pure {A} (x : Mon SM A) :
  (forall this, after (x this) = this) -> preserving Inv x.
Proof. intros Hx this Hthis. by rewrite Hx. Qed.

Lemma preserving_read : preserving Inv (read_currentState : Mon SM State).
Proof.
  apply preserving_pure. intros this. unfold read_currentState.
  by destruct (_currentState this).
Qed.

Lemma preserving_read_for_lookup :
  preserving Inv (read_state_for_lookup : Mon SM State).
Proof.
  apply preserving_pure. intros this. unfold read_state_for_lookup.
  by destruct (_currentState this).
Qed.

Lemma preserving_run_prog api {R} (p : Prog R) :
  api_preserving Inv api -> preserving Inv (run_prog api p).
Proof.
  intros (Hg & Ht & Hs & Hu).
  induction p as [r|e|k IH|e k IH|l k IH|l k IH]; cbn [run_prog].
  - by apply preserving_pure.
  - by apply preserving_pure.
  - apply preserving_bind; auto.
  - apply preserving_bind; auto.
  - apply preserving_bind; auto.
  - apply preserving_bind; auto.
Qed.

Lemma preserving_invoke api {R} c (p : Prog R) :
  api_preserving Inv api -> preserving Inv (invoke api c p).
Proof. intros Hapi this. apply (preserving_run_prog api p Hapi). Qed.

Lemma preserving_invoke_opt api c cb s :
  api_preserving Inv api -> preserving Inv (invoke_opt api c cb s).
Proof.
  intros Hapi. destruct cb; cbn; [by apply preserving_invoke | by apply preserving_pure].
Qed.

Lemma preserving_notify api fuel : api_preserving Inv api ->
  forall index previous current event,
  preserving Inv (notify listener_fn api fuel index previous current event).
Proof.
  intros Hapi. induction fuel as [|fuel IH]; intros index p c ev this Hthis;
    cbn [notify].
  - by destruct (_listeners this !! index).
  - destruct (_listeners this !! index) as [[l|]|]; [ | by apply IH | done].
    apply preserving_bind; [by apply preserving_invoke | intros _; apply IH | done].
Qed.

Lemma preserving_apply_rule api fuel d onEvent current event :
  api_preserving Inv api ->
  preserving Inv (apply_rule listener_fn api fuel d onEvent current event).
Proof.
  intros Hapi. unfold apply_rule.
  apply preserving_bind; [by apply preserving_invoke | intros tr].
  apply preserving_bind; [apply preserving_read | intros previousState].
  apply preserving_bind.
  - destruct (state tr); [ | by apply preserving_pure].
    apply preserving_bind; [by apply preserving_invoke_opt | intros _].
    apply preserving_bind; [intros this; apply Inv_set_currentState | intros _].
    apply preserving_bind; [by apply preserving_pure | intros cfg].
    by apply preserving_invoke_opt.
  - intros _. apply preserving_bind; [by apply preserving_notify | intros _].
    by destruct (sideEffect tr); apply preserving_pure.
Qed.

Lemma preserving_apply_inherited api fuel d current event :
  api_preserving Inv api ->
  preserving Inv (apply_inherited listener_fn api fuel d current event).
Proof.
  intros Hapi. unfold apply_inherited.
  repeat case_decide; try by apply preserving_pure.
  - apply preserving_bind; [apply preserving_read | intros previousState].
    apply preserving_bind; [by apply preserving_invoke_opt | intros _].
    apply preserving_bind; [intros this; apply Inv_set_currentState | intros _].
    apply preserving_bind; [by apply preserving_pure | intros cfg].
    apply preserving_bind; [by apply preserving_invoke_opt | intros _].
    by apply preserving_notify.
  - apply preserving_bind; [apply preserving_read | intros previousState].
    apply preserving_bind; [by apply preserving_invoke_opt | intros _].
    apply preserving_bind; [intros this; apply Inv_clear_currentState | intros _].
    by apply preserving_pure.
Qed.

Lemma preserving_transition_with api fuel event :
  api_preserving Inv api ->
  preserving Inv (transition_with listener_fn api fuel event).
Proof.
  intros Hapi. unfold transition_with.
  apply preserving_bind; [apply preserving_read_for_lookup | intros current].
  apply preserving_bind; [by apply preserving_pure | intros cfg].
  destruct (cfg !! type current) as [d|];
    [ | repeat case_decide; by apply preserving_pure].
  destruct (on d !! type event);
    [ | repeat case_decide;
        [by apply preserving_pure | by apply preserving_apply_inherited
        | by apply preserving_pure]].
  by apply preserving_apply_rule.
Qed.

Lemma preserving_subscribe_with api l :
  api_preserving Inv api -> preserving Inv (subscribe_with listener_fn api l).
Proof.
  intros Hapi. unfold subscribe_with.
  apply preserving_bind; [intros this; apply Inv_add | intros _].
  apply preserving_bind; [apply preserving_read | intros current].
  apply preserving_bind; [by apply preserving_invoke | intros _].
  by apply preserving_pure.
Qed.

Lemma api_at_preserving fuel : api_preserving Inv (api_at listener_fn fuel).
Proof.
  induction fuel as [|fuel IH]; cbn [api_at]; (split; [ | split; [ | split]]); cbn.
  - by apply preserving_pure.
  - intros e. by apply preserving_pure.
  - intros l. by apply preserving_pure.
  - intros l this. apply Inv_delete.
  - by apply preserving_pure.
  - intros e. by apply preserving_transition_with.
  - intros l. apply preserving_bind; [by apply preserving_subscribe_with | intros _].
    by apply preserving_pure.
  - intros l this. apply Inv_delete.
Qed.

(** Any use of the public interface: a client program, a dispatch, a
    subscription, an unsubscription. *)
Lemma runtime_preserves fuel :
  (forall R (p : Prog R), preserving Inv (call listener_fn fuel p)) /\
  (forall event, preserving Inv (transition listener_fn fuel event)) /\
  (forall l, preserving Inv (subscribe listener_fn fuel l)) /\
  (forall l, preserving Inv (unsubscribe l : Mon SM unit)).
Proof.
  split; [ | split; [ | split]].
  - intros R p. apply preserving_run_prog, api_at_preserving.
  - intros event. apply preserving_transition_with, api_at_preserving.
  - intros l. apply preserving_subscribe_with, api_at_preserving.
  - intros l this. apply Inv_delete.
Qed.

End Invariant.

Lemma members_set_delete (d : list (option nat)) b :
  members (set_delete b d) = filter (fun l => l <> b) (members d).
Proof.
  induction d as [|[x|] d IH]; [reflexivity | | exact IH].
  change (members (Some x :: d)) with (x :: members d).
  change (set_delete b (Some x :: d))
    with ((if decide (Some x = Some b) then None else Some x) :: set_delete b d).
  case_decide as Hx.
  - injection Hx as ->. rewrite filter_cons_False by (intros H; by apply H).
    exact IH.
  - rewrite filter_cons_True by (intros ->; by apply Hx).
    change (members (Some x :: set_delete b d)) with (x :: members (set_delete b d)).
    f_equal. exact IH.
Qed.

Lemma set_delete_wf (d : list (option nat)) b : set_wf d -> set_wf (set_delete b d).
Proof.
  unfold set_wf. rewrite members_set_delete. apply NoDup_filter.
Qed.

(** X4.  The listener set stays a set: if no listener is held twice, none
    is held twice after any use of the public interface, whatever the
    callbacks do while it runs (subscribe the same listener again,
    unsubscribe and subscribe in the middle of a round, dispatch from a
    listener). *)
Theorem listener_set_stays_a_set fuel (this : SM) :
  set_wf (_listeners this) ->
  (forall R (p : Prog R), set_wf (_listeners (after (call listener_fn fuel p this)))) /\
  (forall event, set_wf (_listeners (after (transition listener_fn fuel event this)))) /\
  (forall l, set_wf (_listeners (after (subscribe listener_fn fuel l this)))) /\
  (forall l, set_wf (_listeners (after (unsubscribe l this)))).
Proof.
  intros Hwf.
  destruct (runtime_preserves (fun this => set_wf (_listeners this))) with (fuel := fuel)
    as (Hcall & Htransition & Hsubscribe & Hunsubscribe).
  - done.
  - done.
  - intros l this' H. by apply set_add_wf.
  - intros l this' H. by apply set_delete_wf.
  - split; [ | split; [ | split]].
    + intros R p. by apply Hcall.
    + intros event. by apply Htransition.
    + intros l. by apply Hsubscribe.
    + intros l. by apply Hunsubscribe.
Qed.

Lemma runtime_leaves (this0 : SM) fuel :
  let same (this : SM) :=
    _configuration this = _configuration this0 /\
    _scopeStack this = _scopeStack this0 in
  (forall R (p : Prog R), preserving same (call listener_fn fuel p)) /\
  (forall event, preserving same (transition listener_fn fuel event)) /\
  (forall l, preserving same (subscribe listener_fn fuel l)) /\
  (forall l, preserving same (unsubscribe l : Mon SM unit)).
Proof. intros same. by apply runtime_preserves. Qed.

(** X5.  The methods of the running machine do not write the rule table
    or the scope stack: no dispatch and no subscription, and no callback
    that uses the machine through [transition], [subscribe], the
    unsubscribe functions and the [state] getter, changes
    [_configuration] or [_scopeStack].  (A callback that kept a reference
    to a configuration entry point is not of that kind: what such a call
    does is decided by the scope guards.) *)
Theorem runtime_leaves_table_and_scope fuel (this : SM) :
  (forall R (p : Prog R),
     _configuration (after (call listener_fn fuel p this)) = _configuration this /\
     _scopeStack (after (call listener_fn fuel p this)) = _scopeStack this) /\
  (forall event,
     _configuration (after (transition listener_fn fuel event this)) = _configuration this /\
     _scopeStack (after (transition listener_fn fuel event this)) = _scopeStack this) /\
  (forall l,
     _configuration (after (subscribe listener_fn fuel l this)) = _configuration this /\
     _scopeStack (after (subscribe listener_fn fuel l this)) = _scopeStack this).
Proof.
  destruct (runtime_leaves this fuel) as (Hcall & Htransition & Hsubscribe & _).
  split; [ | split].
  - intros R p. by apply Hcall.
  - intros event. by apply Htransition.
  - intros l. by apply Hsubscribe.
Qed.

(** X6.  Once the constructor is done the scope stack is empty, and it
    stays empty: after any use of the machine, each of the five entry
    points, called through a reference kept from the configuration, throws
    its scope error and changes nothing. *)
Theorem entry_points_stay_closed fuel (this : SM) {R} (p : Prog R)
    (local : @StateConfiguration State Event) :
  _scopeStack this = [] ->
  let later := after (call listener_fn fuel p this) in
  (forall s,
     initialState_entry s later = Out later [] (Throws (Error config_scope_message))) /\
  (forall ty cb,
     state_entry ty cb later = Out later [] (Throws (Error config_scope_message))) /\
  (forall f,
     onEnter_entry f (local, later) =
       Out (local, later) []
         (Throws (Error "Call to `onEnter` is allowed only from within a state callback"))) /\
  (forall f,
     onExit_entry f (local, later) =
       Out (local, later) []
         (Throws (Error "Call to `onExit` is allowed only from within a state callback"))) /\
  (forall ty rule,
     on_entry ty rule (local, later) =
       Out (local, later) []
         (Throws (Error "Call to `on` is allowed only from within a state callback"))).
Proof.
  intros Hempty later.
  assert (Hlater : _scopeStack later = []).
  { destruct (runtime_leaves this fuel) as (Hcall & _).
    destruct (Hcall R p this) as [_ Hstack]; [done | ]. unfold later. congruence. }
  assert (Hconfig : head (_scopeStack later) <> Some "config") by by rewrite Hlater.
  assert (Hstate : head (_scopeStack later) <> Some "state") by by rewrite Hlater.
  split; [ | split; [ | split; [ | split]]].
  - intros s. unfold initialState_entry.
    by rewrite (bind_Throws _ _ _ _ _ _ (_checkConfigScope_rejects later Hconfig)).
  - intros ty cb. unfold state_entry.
    by rewrite (bind_Throws _ _ _ _ _ _ (_checkConfigScope_rejects later Hconfig)).
  - intros f. unfold onEnter_entry, bind, outer. cbn [snd fst].
    by rewrite (_checkStateScope_rejects _ later Hstate).
  - intros f. unfold onExit_entry, bind, outer. cbn [snd fst].
    by rewrite (_checkStateScope_rejects _ later Hstate).
  - intros ty rule. unfold on_entry, bind, outer. cbn [snd fst].
    by rewrite (_checkStateScope_rejects _ later Hstate).
Qed.

(** *** More on dispatch *)

(** X7.  A dispatch whose rule returns [dontTransition]: the machine calls
    neither [onExit] nor [onEnter] and assigns no state; the round runs on
    the object as the rule left it, and every listener is told
    [(previous, previous, event)], the same state twice. *)
Theorem dontTransition_only_notifies fuel (this : SM) event current d onEvent
    se previous this1 n1 :
  _currentState this = Some current ->
  _configuration this !! type current = Some d ->
  on d !! type event = Some onEvent ->
  call listener_fn fuel (onEvent current event) this =
    Out this1 n1 (Normal (dontTransition se)) ->
  _currentState this1 = Some previous ->
  let round :=
    notify listener_fn (api_at listener_fn fuel) fuel 0
      (Some previous) previous (Some event) this1 in
  after (transition listener_fn fuel event this) = after round /\
  observed (transition listener_fn fuel event this) =
    Invoked (OnEventCall current event) (Some current) n1
    :: observed round
    ++ match completion round with
       | Normal _ => scheduled se
       | _ => []
       end /\
  Forall (notification_of (Some previous) previous (Some event)) (observed round).
Proof.
  intros Hcur Hd Hon Hrule Hprev round.
  rewrite (transition_stays _ _ _ _ _ _ _ _ _ _ Hcur Hd Hon Hrule Hprev).
  unfold after_observing. cbn [after observed].
  rewrite observed_then_schedule. fold round.
  split; [ | split; [reflexivity | apply notify_all]].
  unfold bind. fold round. by destruct (completion round), se.
Qed.

Lemma notification_is_call previous current event (t : list (@Obs State Event)) :
  Forall (notification_of previous current event) t -> Forall is_call t.
Proof.
  intros Hall. eapply Forall_impl; [exact Hall | ].
  intros [c seen nested|se]; cbn; [done | ].
  intros H. exact H.
Qed.


Lemma invoke_opt_is_call api c cb s (this : SM) :
  Forall is_call (observed (invoke_opt api c cb s this)).
Proof. destruct cb; cbn; repeat constructor. Qed.

Lemma read_currentState_is_call (this : SM) :
  Forall is_call (observed (read_currentState this)).
Proof. unfold read_currentState. destruct (_currentState this); constructor. Qed.

Lemma is_call_bind {A B} (x : Mon SM A) (f : A -> Mon SM B) (this : SM) :
  Forall is_call (observed (x this)) ->
  (forall a this', Forall is_call (observed (f a this'))) ->
  Forall is_call (observed (bind x f this)).
Proof.
  intros Hx Hf. unfold bind.
  destruct (completion (x this)); cbn; [ | done | done | done].
  apply Forall_app. split; [exact Hx | apply Hf].
Qed.

Lemma schedules_last_bind {A} se (x : Mon SM A) (f : A -> Mon SM unit) (this : SM) :
  Forall is_call (observed (x this)) ->
  (forall a, completion (x this) = Normal a ->
     exists calls,
       Forall is_call calls /\
       observed (f a (after (x this))) =
         calls ++ match completion (f a (after (x this))) with
                  | Normal _ => scheduled se
                  | _ => []
                  end) ->
  exists calls,
    Forall is_call calls /\
    observed (bind x f this) =
      calls ++ match completion (bind x f this) with
               | Normal _ => scheduled se
               | _ => []
               end.
Proof.
  intros Hx Hf. unfold bind.
  destruct (completion (x this)) as [a| | |] eqn:Hc; cbn.
  - destruct (Hf a eq_refl) as (calls & Hcalls & Heq).
    exists (observed (x this) ++ calls). split.
    + by apply Forall_app.
    + by rewrite Heq, app_assoc.
  - exists (observed (x this)). by rewrite app_nil_r.
  - exists (observed (x this)). by rewrite app_nil_r.
  - exists (observed (x this)). by rewrite app_nil_r.
Qed.

(** X8.  The side effect of the transition the rule returned is handed to
    [setTimeout] last, after every callback of the dispatch, and only by a
    dispatch that returns: the dispatch's own record is calls into user
    code, followed by the one timer if the dispatch returns normally and
    by nothing if a callback throws. *)
Theorem side_effect_is_scheduled_last fuel (this : SM) event current d onEvent
    tr this1 n1 :
  _currentState this = Some current ->
  _configuration this !! type current = Some d ->
  on d !! type event = Some onEvent ->
  call listener_fn fuel (onEvent current event) this = Out this1 n1 (Normal tr) ->
  exists calls,
    Forall is_call calls /\
    observed (transition listener_fn fuel event this) =
      calls ++ match completion (transition listener_fn fuel event this) with
               | Normal _ => scheduled (sideEffect tr)
               | _ => []
               end.
Proof.
  intros Hcur Hd Hon Hrule.
  rewrite (transition_found _ _ _ _ _ _ Hcur Hd Hon). unfold apply_rule.
  apply schedules_last_bind.
  { cbn. repeat constructor. }
  intros tr' Htr.
  assert (tr' = tr) as ->.
  { unfold invoke in Htr. cbn in Htr. unfold call in Hrule.
    rewrite Hrule in Htr. cbn in Htr. congruence. }
  apply schedules_last_bind.
  { apply read_currentState_is_call. }
  intros previous _.
  apply schedules_last_bind.
  { destruct (state tr) as [next|]; [ | constructor].
    apply is_call_bind; [apply invoke_opt_is_call | intros _ this2].
    rewrite bind_modify, bind_gets. apply invoke_opt_is_call. }
  intros [] _.
  match goal with
  | |- context [bind ?x _ ?this] =>
      exists (observed (x this)); split;
        [ apply (notification_is_call _ _ _ _ (notify_all _ _ _ _ _ _ _)) | ]
  end.
  rewrite observed_then_schedule.
  unfold bind. by destruct (completion (notify _ _ _ _ _ _ _ _)), (sideEffect tr).
Qed.



(** *** Callbacks that throw *)

(** X10.  [onExit] throws: the exception leaves [transition] at once.  The
    assignment of the new state is not reached (the object returned is the
    one [onExit] left), [onEnter] and the listeners are not called and no
    side effect is scheduled. *)
Theorem onExit_throws_before_the_move fuel (this : SM) event current d onEvent
    next se previous this1 n1 f this2 n2 err :
  _currentState this = Some current ->
  _configuration this !! type current = Some d ->
  on d !! type event = Some onEvent ->
  call listener_fn fuel (onEvent current event) this =
    Out this1 n1 (Normal (transitionTo next se)) ->
  _currentState this1 = Some previous ->
  onExit d = Some f ->
  call listener_fn fuel (f previous) this1 = Out this2 n2 (Throws err) ->
  transition listener_fn fuel event this =
  Out this2
    [Invoked (OnEventCall current event) (Some current) n1;
     Invoked (OnExitCall (type current) previous) (Some previous) n2]
    (Throws err).
Proof.
  intros Hcur Hd Hon Hrule Hprev Hf Hexit.
  rewrite (transition_found _ _ _ _ _ _ Hcur Hd Hon). unfold apply_rule.
  rewrite (bind_step _ _ _ _ _ _ (invoke_eq _ _ _ _ _ _ _ Hrule)).
  rewrite (bind_read _ _ _ Hprev). cbn [state transitionTo from_option id sideEffect].
  rewrite Hf. cbn [invoke_opt].
  rewrite (bind_Throws _ _ _ _ _ _
             (bind_Throws _ _ _ _ _ _
                (invoke_eq _ (OnExitCall (type current) previous) _ _ _ _ _ Hexit))).
  unfold after_observing. cbn. by rewrite Hcur, Hprev.
Qed.

(** X11.  [onEnter] throws: the new state has been assigned before the
    callback ran and stays assigned (nothing is rolled back: the callback
    ran on the object that already holds [next]), while no listener is
    notified and no side effect is scheduled. *)
Theorem onEnter_throws_after_the_move fuel (this : SM) event current d onEvent
    next se previous this1 n1 this2 n2 g this3 n3 err :
  _currentState this = Some current ->
  _configuration this !! type current = Some d ->
  on d !! type event = Some onEvent ->
  call listener_fn fuel (onEvent current event) this =
    Out this1 n1 (Normal (transitionTo next se)) ->
  _currentState this1 = Some previous ->
  call_opt listener_fn fuel (onExit d) previous this1 = Out this2 n2 (Normal tt) ->
  _configuration this !! type next ≫= onEnter = Some g ->
  call listener_fn fuel (g next) (set_currentState next this2) =
    Out this3 n3 (Throws err) ->
  transition listener_fn fuel event this =
  Out this3
    (Invoked (OnEventCall current event) (Some current) n1
     :: called_if (onExit d) (OnExitCall (type current) previous) (Some previous) n2
     ++ [Invoked (OnEnterCall (type next) next) (Some next) n3])
    (Throws err).
Proof.
  intros Hcur Hd Hon Hrule Hprev Hexit Hg Henter.
  rewrite (transition_found _ _ _ _ _ _ Hcur Hd Hon). unfold apply_rule.
  rewrite (bind_step _ _ _ _ _ _ (invoke_eq _ _ _ _ _ _ _ Hrule)).
  rewrite (bind_read _ _ _ Hprev). cbn [state transitionTo from_option id sideEffect].
  pose proof (call_keeps fuel (onEvent current event) this) as [Hcfg1 _].
  rewrite Hrule in Hcfg1. cbn in Hcfg1.
  assert (Hcfg2 : _configuration this2 = _configuration this).
  { destruct (onExit d) as [f|]; cbn in Hexit.
    - pose proof (call_keeps fuel (f previous) this1) as [H _].
      rewrite Hexit in H. cbn in H. congruence.
    - injection Hexit as <- _. exact Hcfg1. }
  assert (Hmove :
    (invoke_opt (api_at listener_fn fuel) (OnExitCall (type current) previous)
       (onExit d) previous;;
     modify (set_currentState next);;
     configuration' <- gets _configuration;;
     invoke_opt (api_at listener_fn fuel) (OnEnterCall (type next) next)
       (configuration' !! type next ≫= onEnter) next) this1 =
    Out this3
      (called_if (onExit d) (OnExitCall (type current) previous) (Some previous) n2 ++
       [Invoked (OnEnterCall (type next) next) (Some next) n3])
      (Throws err)).
  { destruct (invoke_opt_eq fuel (OnExitCall (type current) previous) _ _ _ _ _ _ Hexit)
      as [Hexit' _].
    rewrite Hprev in Hexit'.
    rewrite (bind_step _ _ _ _ _ _ Hexit'), bind_modify, bind_gets.
    cbn [_configuration set_currentState]. rewrite Hcfg2, Hg. cbn [invoke_opt].
    rewrite (invoke_eq _ (OnEnterCall (type next) next) _ _ _ _ _ Henter).
    reflexivity. }
  rewrite (bind_Throws _ _ _ _ _ _ Hmove).
  unfold after_observing. cbn. by rewrite Hcur.
Qed.




(** *** A listener subscribed during a round *)



(** *** Subscribing and unsubscribing, composed *)

Lemma filter_other_all (ls : list nat) l :
  l ∉ ls -> filter (fun x => x <> l) ls = ls.
Proof.
  induction ls as [|x ls IH]; intros Hl; [reflexivity | ].
  apply not_elem_of_cons in Hl as [Hne Hl].
  rewrite filter_cons_True by (intros ->; by apply Hne).
  by rewrite IH.
Qed.

(** X14.  The unsubscribe function undoes [subscribe] and nothing else:
    after [subscribe] of a listener (whose synthetic call returns and
    leaves the set alone) and a call of the function it returned, the
    members are the earlier members without that listener, in their
    order; if the listener was not subscribed before, the members are as
    they were. *)
Theorem unsubscribe_undoes_subscribe fuel (this : SM) listener s :
  _currentState this = Some s ->
  calm listener_fn fuel (listener_fn listener None s None) ->
  exists this1 n1 unsubscribe_fn,
    subscribe listener_fn fuel listener this =
      Out this1 [Invoked (ListenerCall listener None s None) (Some s) n1]
        (Normal unsubscribe_fn) /\
    members (_listeners (after (unsubscribe_fn this1))) =
      filter (fun l => l <> listener) (members (_listeners this)) /\
    ((listener ∉ members (_listeners this)) ->
     members (_listeners (after (unsubscribe_fn this1))) = members (_listeners this)).
Proof.
  intros Hcur Hcalm.
  destruct (subscribe_calm fuel this listener s Hcur Hcalm)
    as (this1 & n1 & Hsub & Hl1 & _).
  exists this1, n1, (unsubscribe listener). split; [exact Hsub | ].
  assert (Heq : members (_listeners (after (unsubscribe listener this1))) =
                filter (fun l => l <> listener) (members (_listeners this))).
  { cbn. rewrite members_set_delete, Hl1.
    destruct (decide (listener ∈ members (_listeners this))) as [Hin|Hout].
    - by rewrite set_add_old.
    - rewrite set_add_new, members_app, filter_app by done.
      change (members [Some listener]) with [listener].
      rewrite filter_cons_False by (intros H; by apply H).
      by rewrite filter_nil, app_nil_r. }
  split; [exact Heq | ].
  intros Hout. rewrite Heq. by apply filter_other_all.
Qed.

(** X15.  A listener that is unsubscribed and subscribed again goes to the
    end of the order: the set appends, it does not reuse the released
    position.  After the unsubscribe function and a new [subscribe] (whose
    synthetic call returns and leaves the set alone) the members are the
    other members in their order, followed by the listener. *)
Theorem resubscribed_listener_goes_last fuel (this : SM) listener s :
  _currentState this = Some s ->
  calm listener_fn fuel (listener_fn listener None s None) ->
  exists this2 n2,
    subscribe listener_fn fuel listener (after (unsubscribe listener this)) =
      Out this2 [Invoked (ListenerCall listener None s None) (Some s) n2]
        (Normal (unsubscribe listener)) /\
    members (_listeners this2) =
      filter (fun l => l <> listener) (members (_listeners this)) ++ [listener].
Proof.
  intros Hcur Hcalm.
  destruct (unsubscribe_removes this listener) as [_ Hgone].
  destruct (subscribe_calm fuel (after (unsubscribe listener this)) listener s)
    as (this2 & n2 & Hsub & Hl2 & _); [exact Hcur | exact Hcalm | ].
  exists this2, n2. split; [exact Hsub | ].
  rewrite Hl2, set_add_new, members_app by exact Hgone.
  cbn. by rewrite members_set_delete.
Qed.

(** *** Losing the state *)

(** X16.  An event of discriminant [toString] for which the state
    definition has no rule is not ignored: the lookup finds
    [Object.prototype.toString], whose result has no [state]; [onExit] of
    the current state runs, [_currentState] is set to [undefined] (the
    [state] getter yields [undefined] from then on), and a [TypeError]
    leaves [transition]; every later dispatch throws on reading the
    discriminant of the state. *)
Theorem toString_event_unsets_the_state fuel (this : SM) event current d this2 n2 :
  _currentState this = Some current ->
  _configuration this !! type current = Some d ->
  on d !! type event = None ->
  on d !! "__proto__" = None ->
  type event = "toString" ->
  call_opt listener_fn fuel (onExit d) current this = Out this2 n2 (Normal tt) ->
  transition listener_fn fuel event this =
    Out (clear_currentState this2)
      (called_if (onExit d) (OnExitCall (type current) current) (Some current) n2)
      (Throws (TypeError "Cannot read properties of undefined (reading 'type')")) /\
  _currentState (after (transition listener_fn fuel event this)) = None /\
  forall event',
    transition listener_fn fuel event' (clear_currentState this2) =
      Out (clear_currentState this2) []
        (Throws (TypeError "Cannot read properties of undefined (reading 'type')")).
Proof.
  intros Hcur Hd Hon Hproto Hty Hexit.
  assert (Hrun :
    transition listener_fn fuel event this =
      Out (clear_currentState this2)
        (called_if (onExit d) (OnExitCall (type current) current) (Some current) n2)
        (Throws (TypeError "Cannot read properties of undefined (reading 'type')"))).
  { rewrite (transition_inherited _ _ _ _ _ Hcur Hd Hon Hproto)
      by (unfold inherited; rewrite Hty; by apply (bool_decide_unpack _)).
    unfold apply_inherited.
    rewrite decide_False by (rewrite Hty; discriminate).
    rewrite decide_True by exact Hty.
    rewrite (bind_read _ _ _ Hcur).
    destruct (invoke_opt_eq fuel (OnExitCall (type current) current) _ _ _ _ _ _ Hexit)
      as [Hexit' _].
    rewrite Hcur in Hexit'.
    rewrite (bind_step _ _ _ _ _ _ Hexit'), bind_modify.
    unfold after_observing, throw. cbn. by rewrite app_nil_r. }
  split; [exact Hrun | ]. split; [by rewrite Hrun | ].
  intros event'. reflexivity.
Qed.

(** *** Definitions do not nest *)

Lemma nested_entry_rejected (this : SM) ty (pre : list (@StateCall State Event))
    (inner : Mon SM unit) (rest : @StateDefinitionCallback State Event) err :
  head (_scopeStack this) = Some "config" ->
  inner (unshift "state" this) = Out (unshift "state" this) [] (Throws err) ->
  state_entry ty
    (fun onEnter onExit on =>
       state_script_from onEnter onExit on pre;;
       outer inner;;
       rest onEnter onExit on) this =
  Out (unshift "state" this) [] (Throws err).
Proof.
  intros Hscope Hinner. unfold state_entry.
  rewrite bind_pure with (a := tt)
    by (unfold _checkConfigScope; by rewrite decide_True).
  rewrite bind_modify.
  apply bind_Throws. unfold with_local.
  rewrite (bind_step _ _ _ _ _ _
             (state_script_run pre _ (unshift "state" this) eq_refl)).
  rewrite after_observing_nil.
  assert (Houter : forall local : @StateConfiguration State Event,
    outer inner (local, unshift "state" this) =
      Out (local, unshift "state" this) [] (Throws err)).
  { intros local. unfold outer. cbn [snd fst]. by rewrite Hinner. }
  by rewrite (bind_Throws _ _ _ _ _ _ (Houter _)).
Qed.

(** X17.  Definitions do not nest.  A configuration that calls
    [initialState] or [state] inside a [state] block fails in the
    constructor with the error of the configuration-scope guard (the
    message names [initialState] in both cases); the block is not
    recorded, what follows does not run, and the scope stack is left as
    it was at the throw. *)
Theorem nested_definition_is_rejected (before : list (@ConfigCall State Event))
    ty (pre : list (@StateCall State Event)) rest later :
  let stuck : SM :=
    {| _currentState := initial_after before None;
       _configuration := table_after before ∅;
       _listeners := [];
       _scopeStack := ["state"; "config"] |} in
  (forall s,
     new_StateMachine
       (Some (nesting before ty pre (fun initialState _ => initialState s) rest later)) =
     Out stuck [] (Throws (Error config_scope_message))) /\
  (forall ty' cb,
     new_StateMachine
       (Some (nesting before ty pre (fun _ state => state ty' cb) rest later)) =
     Out stuck [] (Throws (Error config_scope_message))).
Proof.
  intros stuck.
  pose (this1 := {| _currentState := initial_after before None;
                    _configuration := table_after before ∅;
                    _listeners := [];
                    _scopeStack := ["config"] |} : SM).
  assert (Hbefore : config_script_from initialState_entry state_entry before
                      (unshift "config" fresh) = Out this1 [] (Normal tt)).
  { apply (config_script_run before (unshift "config" fresh) eq_refl). }
  assert (Hrejected : forall inner : Mon SM unit,
    inner stuck = Out stuck [] (Throws (Error config_scope_message)) ->
    constructor
      (Some (fun initialState state =>
               config_script_from initialState state before;;
               state ty (fun onEnter onExit on =>
                 state_script_from onEnter onExit on pre;;
                 outer inner;;
                 rest onEnter onExit on);;
               later initialState state)) fresh =
    Out stuck [] (Throws (Error config_scope_message))).
  { intros inner Hinner. unfold constructor. rewrite bind_modify.
    apply bind_Throws.
    rewrite (bind_step _ _ _ _ _ _ Hbefore), after_observing_nil.
    apply bind_Throws.
    apply (nested_entry_rejected this1 ty pre inner rest _ eq_refl Hinner). }
  assert (Hguard :
    _checkConfigScope stuck = Out stuck [] (Throws (Error config_scope_message))).
  { by apply _checkConfigScope_rejects. }
  split.
  - intros s. apply (Hrejected (initialState_entry s)).
    unfold initialState_entry. by rewrite (bind_Throws _ _ _ _ _ _ Hguard).
  - intros ty' cb. apply (Hrejected (state_entry ty' cb)).
    unfold state_entry. by rewrite (bind_Throws _ _ _ _ _ _ Hguard).
Qed.

End Properties.

(** ** The examples run *)

Example turnstile_built :
  new_StateMachine (Some turnstile_config) =
  Out {| _currentState := Some (locked 0); _configuration := turnstile_table;
         _listeners := []; _scopeStack := [] |}
    [Invoked (OnEnterCall "locked" (locked 0)) (Some (locked 0)) []]
    (Normal tt).
Proof. vm_compute. reflexivity. Qed.

(** Spec scenario: fare 50, [locked(0)], [insertCoin(50)]. *)
Example turnstile_fare_paid :
  transition example_listeners 0 (insertCoin 50) turnstile =
  Out (set_currentState unlocked turnstile)
    [Invoked (OnEventCall (locked 0) (insertCoin 50)) (Some (locked 0)) [];
     SetTimeout log]
    (Normal tt).
Proof. vm_compute. reflexivity. Qed.

(** Spec scenario: [insertCoin(10)] from [locked(0)]. *)
Example turnstile_fare_short :
  transition example_listeners 0 (insertCoin 10) turnstile =
  Out (set_currentState (locked 10) turnstile)
    [Invoked (OnEventCall (locked 0) (insertCoin 10)) (Some (locked 0)) [];
     Invoked (OnEnterCall "locked" (locked 10)) (Some (locked 10)) []]
    (Normal tt).
Proof. vm_compute. reflexivity. Qed.

(** A listener that dispatches: the inner dispatch is complete, round
    included, before the outer round goes on. *)
Example reentrant_listener :
  observed (transition example_listeners 3 machineDidFail
              (with_listeners [3; 4] turnstile)) =
  [Invoked (OnEventCall (locked 0) machineDidFail) (Some (locked 0)) [];
   Invoked (ListenerCall 3 (Some (locked 0)) (broken (locked 0)) (Some machineDidFail))
     (Some (broken (locked 0)))
     [Invoked (OnEventCall (broken (locked 0)) machineRepairDidComplete)
        (Some (broken (locked 0))) [];
      Invoked (OnExitCall "broken" (broken (locked 0))) (Some (broken (locked 0))) [];
      Invoked (OnEnterCall "locked" (locked 0)) (Some (locked 0)) [];
      Invoked (ListenerCall 3 (Some (broken (locked 0))) (locked 0)
                 (Some machineRepairDidComplete)) (Some (locked 0)) [];
      Invoked (ListenerCall 4 (Some (broken (locked 0))) (locked 0)
                 (Some machineRepairDidComplete)) (Some (locked 0)) []];
   Invoked (ListenerCall 4 (Some (locked 0)) (broken (locked 0)) (Some machineDidFail))
     (Some (locked 0)) [];
   SetTimeout log].
Proof. vm_compute. reflexivity. Qed.

(** The three construction errors of the test suite. *)
Example constructor_without_callback :
  completion (@new_StateMachine TurnstileState TurnstileEvent _ None) =
  Throws (Error "The StateMachine constructor expects a callback as the first argument").
Proof. reflexivity. Qed.

Example constructor_without_initial_state :
  completion (@new_StateMachine TurnstileState TurnstileEvent _
                (Some (fun initialState state =>
                         state "locked" (fun onEnter onExit on => ret tt)))) =
  Throws (Error "No initial state provided").
Proof. vm_compute. reflexivity. Qed.

Example constructor_without_state_definition :
  completion (@new_StateMachine TurnstileState TurnstileEvent _
                (Some (fun initialState state => initialState (locked 0)))) =
  Throws (Error "No state definition was provided").
Proof. vm_compute. reflexivity. Qed.

(** Test "should throw when `state` is used outside of the config
    callback": the message the test expects. *)
Example nested_state_is_rejected :
  completion (new_StateMachine (Some nested_state_config)) =
  Throws (Error "Call to `initialState` is allowed only from within the config callback, but not inside a state callback").
Proof. vm_compute. reflexivity. Qed.

(** Test "should properly unsubscribe when unsubscribe is called": the
    counter is the number of listener calls. *)
Example unsubscribe_counts :
  let count (o : Outcome Turnstile unit) := length (notified_listeners (observed o)) in
  let swap := insertCoin 50 in
  let back := admitPerson in
  let run1 := (subscribe example_listeners 1 5;; subscribe example_listeners 1 6;; ret tt) turnstile in
  let run2 := transition example_listeners 2 swap (after run1) in
  let run3 := (unsubscribe 5;; transition example_listeners 2 back) (after run2) in
  let run4 := (unsubscribe 6;; transition example_listeners 2 swap) (after run3) in
  (count run1, count run2, count run3, count run4) = (2, 2, 1, 0).
Proof. vm_compute. reflexivity. Qed.

(** ** The theorems at work on the turnstile *)





(** The machine [gate] is in state [locked] and no rule is registered under [constructor]: the
    dispatch exits and enters [locked] and calls the listener.  An event
    of discriminant [pull] is ignored. *)
Lemma transition_without_rule_witness :
  transition gate_listeners 1 (event_of_type "constructor") gate =
  Out gate
    [Invoked (OnExitCall "locked" (locked 0)) (Some (locked 0)) [];
     Invoked (OnEnterCall "locked" (locked 0)) (Some (locked 0)) [];
     Invoked (ListenerCall 5 (Some (locked 0)) (locked 0)
                (Some (event_of_type "constructor"))) (Some (locked 0)) []]
    (Normal tt) /\
  transition gate_listeners 1 (event_of_type "pull") gate = Out gate [] (Normal tt).
Proof.
  assert (Hlocked : _configuration gate !! "locked" = Some gate_definition)
    by (vm_compute; reflexivity).
  split.
  - destruct (transition_without_rule gate_listeners 1 gate
                (event_of_type "constructor") (locked 0) eq_refl) as [_ Hfound].
    etransitivity;
      [ apply (Hfound gate_definition gate [] gate [])
      | vm_compute; reflexivity ];
      [ exact Hlocked | vm_compute; reflexivity .. ].
  - destruct (transition_without_rule gate_listeners 1 gate
                (event_of_type "pull") (locked 0) eq_refl) as [Hnothing _].
    apply Hnothing. unfold finds_nothing.
    change (type (locked 0)) with "locked". rewrite Hlocked.
    split; [vm_compute; reflexivity | ]. split; [vm_compute; reflexivity | ].
    refine (bool_decide_unpack _ _). vm_compute. exact I.
Defined.

Lemma transition_rule_throws_witness :
  transition example_listeners 2 admitPerson (with_listeners [5; 6] jammed) =
  Out (with_listeners [5; 6] jammed)
    [Invoked (OnEventCall unlocked admitPerson) (Some unlocked) []]
    (Throws (Error "jammed")).
Proof.
  apply (transition_rule_throws example_listeners 2 (with_listeners [5; 6] jammed)
           admitPerson unlocked jammed_definition jammed_admitPerson
           (with_listeners [5; 6] jammed) [] (Error "jammed"));
    vm_compute; reflexivity.
Defined.

Lemma subscribe_notifies_at_once_witness :
  subscribe example_listeners 1 5 turnstile =
  Out (with_listeners [5] turnstile)
    [Invoked (ListenerCall 5 None (locked 0) None) (Some (locked 0)) []]
    (Normal (unsubscribe 5)).
Proof.
  apply (subscribe_notifies_at_once example_listeners 1 turnstile 5 (locked 0)).
  reflexivity.
Defined.



Lemma state_guard_names_initialState_witness :
  exists message,
    state_entry "locked" (fun onEnter onExit on => ret tt)
      (unshift "state" (unshift "config" (@fresh TurnstileState TurnstileEvent))) =
      Out (unshift "state" (unshift "config" fresh)) [] (Throws (Error message)) /\
    names "state" message = false /\
    names "initialState" message = true.
Proof.
  apply (state_guard_names_initialState
           (unshift "state" (unshift "config" (@fresh TurnstileState TurnstileEvent)))).
  vm_compute. discriminate.
Defined.



(** ** Where the code departs from the claims *)




(** ** More of the machine at work *)


(** C6 as stated fails: the hasty turnstile is locked and a person is to
    be admitted.  The rule first has the fare paid, which unlocks the
    turnstile, and then throws: the exception leaves [transition], and the
    turnstile is not in the state it was in before the dispatch. *)
Lemma failed_rule_has_dispatched :
  let run := transition example_listeners 2 admitPerson hasty in
  ~ (completion run = Throws (Error "jammed") ->
     _currentState (after run) = _currentState hasty).
Proof.
  intros run Hclaim.
  specialize (Hclaim ltac:(vm_compute; reflexivity)).
  vm_compute in Hclaim. discriminate Hclaim.
Qed.


Ltac plain_calls :=
  unfold plain, plain_block;
  repeat first
    [ apply Forall_nil
    | apply Forall_cons; split
    | split
    | exact I
    | discriminate
    | (intros H; exact H)
    | (cbn; intros H; discriminate H) ].

Lemma constructor_builds_described_machine_witness :
  new_StateMachine (Some (config_script turnstile_calls)) =
  Out turnstile [Invoked (OnEnterCall "locked" (locked 0)) (Some (locked 0)) []]
    (Normal tt).
Proof.
  etransitivity;
    [ apply (proj1 (constructor_builds_described_machine turnstile_calls
                      ltac:(plain_calls)))
    | vm_compute; reflexivity ].
Defined.

(** [on("insertCoin", ...)] twice in one block: the second rule is the
    one a dispatch goes on with. *)
Lemma last_registered_rule_is_found_witness :
  let calls :=
    [CallInitialState (locked 0);
     CallState "locked"
       [CallOn "insertCoin" locked_admitPerson;
        CallOn "insertCoin" locked_insertCoin;
        CallOn "admitPerson" locked_admitPerson];
     CallState "unlocked" [CallOn "admitPerson" unlocked_admitPerson]] in
  transition example_listeners 1 (insertCoin 10)
    (after (new_StateMachine (Some (config_script calls)))) =
  Out (set_currentState (locked 10)
         (after (new_StateMachine (Some (config_script calls)))))
    [Invoked (OnEventCall (locked 0) (insertCoin 10)) (Some (locked 0)) []]
    (Normal tt).
Proof.
  intros calls.
  etransitivity;
    [ apply (last_registered_rule_is_found example_listeners 1
               [CallInitialState (locked 0)] "locked"
               [CallOn "insertCoin" locked_admitPerson] "insertCoin" locked_insertCoin
               [CallOn "admitPerson" locked_admitPerson]
               [CallState "unlocked" [CallOn "admitPerson" unlocked_admitPerson]]
               (after (new_StateMachine (Some (config_script calls))))
               (locked 0) (insertCoin 10))
    | vm_compute; reflexivity ].
  - plain_calls.
  - repeat constructor. cbn. discriminate.
  - repeat constructor. cbn. discriminate.
  - vm_compute. reflexivity.
  - reflexivity.
  - vm_compute. reflexivity.
  - reflexivity.
  - reflexivity.
Defined.

(** Two blocks for [locked]: the rule of the first is gone. *)
Lemma later_block_replaces_earlier_witness :
  let calls :=
    [CallInitialState (locked 0);
     CallState "locked" [CallOn "insertCoin" locked_insertCoin];
     CallState "locked" [CallOn "admitPerson" locked_admitPerson]] in
  transition example_listeners 1 (insertCoin 10)
    (after (new_StateMachine (Some (config_script calls)))) =
  Out (after (new_StateMachine (Some (config_script calls)))) [] (Normal tt).
Proof.
  intros calls.
  apply (later_block_replaces_earlier example_listeners 1
           [CallInitialState (locked 0);
            CallState "locked" [CallOn "insertCoin" locked_insertCoin]]
           "locked" [CallOn "admitPerson" locked_admitPerson] []
           (after (new_StateMachine (Some (config_script calls))))
           (locked 0) (insertCoin 10)).
  - plain_calls.
  - constructor.
  - repeat constructor. cbn. discriminate.
  - refine (bool_decide_unpack _ _). vm_compute. exact I.
  - vm_compute. reflexivity.
  - reflexivity.
  - vm_compute. reflexivity.
  - reflexivity.
Defined.

Lemma listener_set_stays_a_set_witness :
  set_wf (_listeners (after (transition example_listeners 3 machineDidFail
                               (with_listeners [3; 4] turnstile)))).
Proof.
  assert (Hwf : set_wf (_listeners (with_listeners [3; 4] turnstile))).
  { unfold set_wf. refine (bool_decide_unpack _ _). vm_compute. exact I. }
  destruct (listener_set_stays_a_set example_listeners 3
              (with_listeners [3; 4] turnstile) Hwf) as (_ & Htransition & _).
  exact (Htransition machineDidFail).
Defined.

Lemma entry_points_stay_closed_witness :
  let later :=
    after (call example_listeners 2
             (CallTransition (insertCoin 50) (Return tt)) turnstile) in
  state_entry "locked" (fun onEnter onExit on => ret tt) later =
  Out later [] (Throws (Error config_scope_message)).
Proof.
  intros later.
  assert (Hempty : _scopeStack turnstile = []) by (vm_compute; reflexivity).
  destruct (entry_points_stay_closed example_listeners 2 turnstile
              (CallTransition (insertCoin 50) (Return tt)) locked_definition Hempty)
    as (_ & Hstate & _).
  exact (Hstate "locked" (fun onEnter onExit on => ret tt)).
Defined.

(** [admitPerson] at the locked turnstile. *)
Lemma dontTransition_only_notifies_witness :
  observed (transition example_listeners 2 admitPerson
              (with_listeners [5; 6] turnstile)) =
  [Invoked (OnEventCall (locked 0) admitPerson) (Some (locked 0)) [];
   Invoked (ListenerCall 5 (Some (locked 0)) (locked 0) (Some admitPerson))
     (Some (locked 0)) [];
   Invoked (ListenerCall 6 (Some (locked 0)) (locked 0) (Some admitPerson))
     (Some (locked 0)) [];
   SetTimeout log].
Proof.
  destruct (dontTransition_only_notifies example_listeners 2
              (with_listeners [5; 6] turnstile) admitPerson (locked 0)
              locked_definition locked_admitPerson (Some log) (locked 0)
              (with_listeners [5; 6] turnstile) [])
    as (_ & Hobserved & _);
    [vm_compute; reflexivity .. | ].
  rewrite Hobserved. vm_compute. reflexivity.
Defined.

Lemma side_effect_is_scheduled_last_witness :
  exists calls,
    Forall is_call calls /\
    observed (transition example_listeners 2 admitPerson
                (with_listeners [5; 6] turnstile)) = calls ++ [SetTimeout log].
Proof.
  destruct (side_effect_is_scheduled_last example_listeners 2
              (with_listeners [5; 6] turnstile) admitPerson (locked 0)
              locked_definition locked_admitPerson (dontTransition (Some log))
              (with_listeners [5; 6] turnstile) [])
    as (calls & Hcalls & Hobserved);
    [vm_compute; reflexivity .. | ].
  exists calls. split; [exact Hcalls | ].
  rewrite Hobserved. f_equal.
Defined.


(** [admitPerson] at the guarded turnstile: [onExit] of [unlocked] throws. *)
Lemma onExit_throws_before_the_move_witness :
  transition example_listeners 2 admitPerson (with_listeners [5; 6] guarded) =
  Out (with_listeners [5; 6] guarded)
    [Invoked (OnEventCall unlocked admitPerson) (Some unlocked) [];
     Invoked (OnExitCall "unlocked" unlocked) (Some unlocked) []]
    (Throws (Error "cannot leave")).
Proof.
  etransitivity;
    [ apply (onExit_throws_before_the_move example_listeners 2
               (with_listeners [5; 6] guarded) admitPerson unlocked
               (described_definition guarded_unlocked) unlocked_admitPerson
               (locked 0) None unlocked (with_listeners [5; 6] guarded) []
               exit_fails (with_listeners [5; 6] guarded) [] (Error "cannot leave"))
    | reflexivity ];
    vm_compute; reflexivity.
Defined.

(** [machineDidFail] at the guarded turnstile, locked: [onEnter] of
    [broken] throws, and the turnstile is broken. *)
Lemma onEnter_throws_after_the_move_witness :
  let this := with_listeners [5; 6] (set_currentState (locked 0) guarded) in
  transition example_listeners 2 machineDidFail this =
  Out (set_currentState (broken (locked 0)) this)
    [Invoked (OnEventCall (locked 0) machineDidFail) (Some (locked 0)) [];
     Invoked (OnEnterCall "broken" (broken (locked 0))) (Some (broken (locked 0))) []]
    (Throws (Error "cannot enter")).
Proof.
  intros this.
  etransitivity;
    [ apply (onEnter_throws_after_the_move example_listeners 2 this machineDidFail
               (locked 0) (described_definition guarded_locked) locked_machineDidFail
               (broken (locked 0)) (Some log) (locked 0) this [] this []
               enter_fails (set_currentState (broken (locked 0)) this) []
               (Error "cannot enter"))
    | vm_compute; reflexivity ];
    vm_compute; reflexivity.
Defined.



Lemma unsubscribe_undoes_subscribe_witness :
  exists (this1 : Turnstile) n1 unsubscribe_fn,
    subscribe example_listeners 1 4 (with_listeners [5; 6] turnstile) =
      Out this1 [Invoked (ListenerCall 4 None (locked 0) None) (Some (locked 0)) n1]
        (Normal unsubscribe_fn) /\
    members (_listeners (after (unsubscribe_fn this1))) = [5; 6].
Proof.
  destruct (unsubscribe_undoes_subscribe example_listeners 1
              (with_listeners [5; 6] turnstile) 4 (locked 0))
    as (this1 & n1 & unsubscribe_fn & Hsub & _ & Hsame).
  - reflexivity.
  - apply calm_Return.
  - exists this1, n1, unsubscribe_fn. split; [exact Hsub | ].
    rewrite Hsame; [vm_compute; reflexivity | ].
    refine (bool_decide_unpack _ _). vm_compute. exact I.
Defined.

Lemma resubscribed_listener_goes_last_witness :
  exists (this2 : Turnstile) n2,
    subscribe example_listeners 1 5
      (after (unsubscribe 5 (with_listeners [5; 6] turnstile))) =
      Out this2 [Invoked (ListenerCall 5 None (locked 0) None) (Some (locked 0)) n2]
        (Normal (unsubscribe 5)) /\
    members (_listeners this2) = [6; 5].
Proof.
  destruct (resubscribed_listener_goes_last example_listeners 1
              (with_listeners [5; 6] turnstile) 5 (locked 0))
    as (this2 & n2 & Hsub & Hmembers).
  - reflexivity.
  - apply calm_Return.
  - exists this2, n2. split; [exact Hsub | ].
    rewrite Hmembers. vm_compute. reflexivity.
Defined.

(** The machine [gate] is in state [locked] and receives an event of discriminant [toString]. *)
Lemma toString_event_unsets_the_state_witness :
  transition gate_listeners 1 (event_of_type "toString") gate =
  Out (clear_currentState gate)
    [Invoked (OnExitCall "locked" (locked 0)) (Some (locked 0)) []]
    (Throws (TypeError "Cannot read properties of undefined (reading 'type')")) /\
  transition gate_listeners 1 (event_of_type "push") (clear_currentState gate) =
  Out (clear_currentState gate) []
    (Throws (TypeError "Cannot read properties of undefined (reading 'type')")).
Proof.
  destruct (toString_event_unsets_the_state gate_listeners 1 gate
              (event_of_type "toString") (locked 0) gate_definition gate [])
    as (Hrun & _ & Hlater);
    [vm_compute; reflexivity .. | ].
  split; [exact Hrun | apply Hlater].
Defined.
